(** * StatusLineWatcher (src/statusline-capture.ts): a shallow embedding

    The watcher tails per-agent JSONL log files: it remembers an offset per
    file, re-reads the file on every change notification, slices the text
    from the stored offset, splits it into lines and emits one [update]
    event per line that [JSON.parse] accepts.

    Layout of the development:
    - [Utf8]      the decoder behind [readFileSync(path, "utf-8")];
    - [JsString]  [String.prototype.trim], [slice], [split("\n")];
    - [Json]      [JSON.parse] as a lexer and a pushdown parser;
    - [Fs]        the part of [node:fs] and [node:path] the class uses;
    - [Watcher]   the class itself, in a state-and-exception monad;
    - [Example]   concrete worlds to run the methods in;
    - the facts about each layer, and in [Claims] the properties C1 to
      C10 of the specification, each with a worked case. *)

From Stdlib Require Import NArith ZArith List Lia Bool.
From Stdlib.Strings Require Import String Ascii Byte.
From stdpp Require Import gmap strings list fin_maps.
Import ListNotations.

Local Open Scope N_scope.

(** A JavaScript string is a sequence of UTF-16 code units. *)
Abbreviation jsstring := (list N).

(** ** UTF-8 decoding, as the WHATWG decoder Node uses for ["utf-8"] *)
Module Utf8.

(** The decoder is either between characters or inside a multi-byte
    sequence: [needed] continuation bytes in all, [seen] of them read,
    the code point accumulated so far, and the range the next byte must
    fall in. *)
Inductive state :=
| Idle
| Pending (needed seen : nat) (cp lower upper : N).

(** The UTF-16 code units of a code point (a surrogate pair above the
    basic plane). *)
Definition units (cp : N) : jsstring :=
  if cp <? 0x10000 then [cp]
  else [0xD800 + (cp - 0x10000) / 0x400; 0xDC00 + (cp - 0x10000) mod 0x400].

Definition replacement : N := 0xFFFD.

(** A byte read between characters. *)
Definition start (b : N) : jsstring * state :=
  if b <=? 0x7F then ([b], Idle)
  else if (0xC2 <=? b) && (b <=? 0xDF) then
    ([], Pending 1 0 (N.land b 0x1F) 0x80 0xBF)
  else if (0xE0 <=? b) && (b <=? 0xEF) then
    ([], Pending 2 0 (N.land b 0xF)
           (if b =? 0xE0 then 0xA0 else 0x80)
           (if b =? 0xED then 0x9F else 0xBF))
  else if (0xF0 <=? b) && (b <=? 0xF4) then
    ([], Pending 3 0 (N.land b 0x7)
           (if b =? 0xF0 then 0x90 else 0x80)
           (if b =? 0xF4 then 0x8F else 0xBF))
  else ([replacement], Idle).

(** One byte: a continuation byte in range extends the sequence; any
    other byte ends it with U+FFFD and is read again as a first byte. *)
Definition step (st : state) (b : N) : jsstring * state :=
  match st with
  | Idle => start b
  | Pending needed seen cp lower upper =>
      if (lower <=? b) && (b <=? upper) then
        let cp' := N.lor (N.shiftl cp 6) (N.land b 0x3F) in
        if Nat.eqb (S seen) needed then (units cp', Idle)
        else ([], Pending needed (S seen) cp' 0x80 0xBF)
      else
        let '(out, st') := start b in (replacement :: out, st')
  end.

(** End of input inside a sequence yields one U+FFFD. *)
Definition flush (st : state) : jsstring :=
  match st with Idle => [] | Pending _ _ _ _ _ => [replacement] end.

(** The output for [bytes] without the final flush, and the state
    reached. *)
Fixpoint run (st : state) (bytes : list byte) : jsstring * state :=
  match bytes with
  | [] => ([], st)
  | b :: rest =>
      let '(out, st') := step st (Byte.to_N b) in
      let '(out', st'') := run st' rest in
      (out ++ out', st'')
  end.

(** Decoding resumed in state [st]. *)
Definition resume (st : state) (bytes : list byte) : jsstring :=
  let '(out, st') := run st bytes in out ++ flush st'.

Definition decode (bytes : list byte) : jsstring := resume Idle bytes.

(** Bytes of the sequence the decoder is inside. *)
Definition held (st : state) : nat :=
  match st with Idle => 0 | Pending _ seen _ _ _ => S seen end.

(** What the decoder has emitted once it has read [bytes], and the
    state that leaves it in. *)
Definition emitted (bytes : list byte) : jsstring := fst (run Idle bytes).
Definition state_after (bytes : list byte) : state := snd (run Idle bytes).

Definition ascii_only (bytes : list byte) : Prop :=
  Forall (fun b => Byte.to_N b <= 0x7F) bytes.

End Utf8.

(** ** The string methods the watcher calls *)
Module JsString.

Definition LF : N := 10.

(** ECMAScript WhiteSpace and LineTerminator code units, which [trim]
    removes. *)
Definition is_js_ws (c : N) : bool :=
  (c =? 0x9) || (c =? 0xA) || (c =? 0xB) || (c =? 0xC) || (c =? 0xD)
  || (c =? 0x20) || (c =? 0xA0) || (c =? 0x1680)
  || ((0x2000 <=? c) && (c <=? 0x200A))
  || (c =? 0x2028) || (c =? 0x2029) || (c =? 0x202F) || (c =? 0x205F)
  || (c =? 0x3000) || (c =? 0xFEFF).

Fixpoint trimStart (s : jsstring) : jsstring :=
  match s with
  | c :: r => if is_js_ws c then trimStart r else s
  | [] => []
  end.

Definition trimEnd (s : jsstring) : jsstring := rev (trimStart (rev s)).

(** [s.trim()] *)
Definition trim (s : jsstring) : jsstring := trimEnd (trimStart s).

(** [s.slice(offset)] for an offset that is a non-negative integer. *)
Definition slice (s : jsstring) (offset : nat) : jsstring := drop offset s.

(** [s.split("\n")]: never empty; the empty string gives one empty
    line. *)
Fixpoint split_lf (s : jsstring) : list jsstring :=
  match s with
  | [] => [[]]
  | c :: r =>
      if c =? LF then [] :: split_lf r
      else match split_lf r with
           | l :: ls => (c :: l) :: ls
           | [] => [[c]]
           end
  end.

(** A string of whitespace only. *)
Definition blank (s : jsstring) : Prop := Forall (fun c => is_js_ws c = true) s.

(** A line: text without a line feed. *)
Definition single_line (s : jsstring) : Prop := LF ∉ s.

(** The whitespace code units, one by one. *)
Definition js_ws_units : list N :=
  [0x9; 0xA; 0xB; 0xC; 0xD; 0x20; 0xA0; 0x1680;
   0x2000; 0x2001; 0x2002; 0x2003; 0x2004; 0x2005; 0x2006; 0x2007;
   0x2008; 0x2009; 0x200A; 0x2028; 0x2029; 0x202F; 0x205F; 0x3000; 0xFEFF].

(** Rocq text as a JavaScript string (ASCII only); an apostrophe stands
    for the double quote, which JSON needs and a Rocq literal cannot
    hold undoubled. *)
Definition of_ascii (a : ascii) : N :=
  let n := N_of_ascii a in if n =? 39 then 34 else n.

Fixpoint of_string (s : string) : jsstring :=
  match s with
  | EmptyString => []
  | String a r => of_ascii a :: of_string r
  end.

(** The same text as the bytes of a file. *)
Definition bytes_of (s : string) : list byte :=
  map (fun a => byte_of_ascii (ascii_of_N (of_ascii a))) (list_ascii_of_string s).

End JsString.

(** ** [JSON.parse]

    The text is cut into tokens by a one-pass lexer and the tokens are
    read by a pushdown parser; both are total and need no fuel.  A number
    is kept as its lexeme, an object as the list of its members in source
    order. *)
Module Json.

#[local] Unset Elimination Schemes.
Inductive json :=
| JNull
| JBool (b : bool)
| JNumber (lexeme : jsstring)
| JString (s : jsstring)
| JArray (items : list json)
| JObject (members : list (jsstring * json)).
#[local] Set Elimination Schemes.

Inductive token :=
| TLBrace | TRBrace | TLBracket | TRBracket | TComma | TColon
| TTrue | TFalse | TNull
| TString (s : jsstring)
| TNumber (lexeme : jsstring).

Inductive literal := LitTrue | LitFalse | LitNull.

Definition literal_text (l : literal) : jsstring :=
  match l with
  | LitTrue => [116; 114; 117; 101]
  | LitFalse => [102; 97; 108; 115; 101]
  | LitNull => [110; 117; 108; 108]
  end.

Definition literal_token (l : literal) : token :=
  match l with LitTrue => TTrue | LitFalse => TFalse | LitNull => TNull end.

(** Where the lexer is inside a number: an optional minus sign, then
    zero or a digit string without leading zero, then an optional
    fraction (a dot and digits), then an optional exponent (e or E, an
    optional sign, digits). *)
Inductive nphase :=
| NMinus | NZero | NInt | NDot | NFrac | NExpMark | NExpSign | NExp.

Inductive lstate :=
| LStart
| LStr (acc : jsstring)
| LEsc (acc : jsstring)
| LHex (acc : jsstring) (togo : nat) (v : N)
| LNum (ph : nphase) (acc : jsstring)
| LLit (l : literal) (matched : nat).

(** JSON whitespace: space, tab, line feed, carriage return. *)
Definition is_json_ws (c : N) : bool :=
  (c =? 0x20) || (c =? 0x9) || (c =? 0xA) || (c =? 0xD).

Definition is_digit (c : N) : bool := (48 <=? c) && (c <=? 57).

Definition hex_value (c : N) : option N :=
  if (48 <=? c) && (c <=? 57) then Some (c - 48)
  else if (65 <=? c) && (c <=? 70) then Some (c - 55)
  else if (97 <=? c) && (c <=? 102) then Some (c - 87)
  else None.

(** A code unit read between tokens. *)
Definition lex_start (c : N) : option (list token * lstate) :=
  if is_json_ws c then Some ([], LStart)
  else if c =? 123 then Some ([TLBrace], LStart)
  else if c =? 125 then Some ([TRBrace], LStart)
  else if c =? 91 then Some ([TLBracket], LStart)
  else if c =? 93 then Some ([TRBracket], LStart)
  else if c =? 44 then Some ([TComma], LStart)
  else if c =? 58 then Some ([TColon], LStart)
  else if c =? 34 then Some ([], LStr [])
  else if c =? 45 then Some ([], LNum NMinus [c])
  else if c =? 48 then Some ([], LNum NZero [c])
  else if is_digit c then Some ([], LNum NInt [c])
  else if c =? 116 then Some ([], LLit LitTrue 1)
  else if c =? 102 then Some ([], LLit LitFalse 1)
  else if c =? 110 then Some ([], LLit LitNull 1)
  else None.

(** The phase after [c], when [c] continues the number. *)
Definition num_next (ph : nphase) (c : N) : option nphase :=
  let exp_mark := (c =? 101) || (c =? 69) in
  match ph with
  | NMinus => if c =? 48 then Some NZero
              else if is_digit c then Some NInt else None
  | NZero => if c =? 46 then Some NDot
             else if exp_mark then Some NExpMark else None
  | NInt => if is_digit c then Some NInt
            else if c =? 46 then Some NDot
            else if exp_mark then Some NExpMark else None
  | NDot => if is_digit c then Some NFrac else None
  | NFrac => if is_digit c then Some NFrac
             else if exp_mark then Some NExpMark else None
  | NExpMark => if (c =? 43) || (c =? 45) then Some NExpSign
                else if is_digit c then Some NExp else None
  | NExpSign => if is_digit c then Some NExp else None
  | NExp => if is_digit c then Some NExp else None
  end.

(** The phases in which the text read so far is a complete number. *)
Definition num_complete (ph : nphase) : bool :=
  match ph with NZero | NInt | NFrac | NExp => true | _ => false end.

Definition unescape (c : N) : option N :=
  if c =? 34 then Some 34
  else if c =? 92 then Some 92
  else if c =? 47 then Some 47
  else if c =? 98 then Some 8
  else if c =? 102 then Some 12
  else if c =? 110 then Some 10
  else if c =? 114 then Some 13
  else if c =? 116 then Some 9
  else None.

Definition lex_step (st : lstate) (c : N) : option (list token * lstate) :=
  match st with
  | LStart => lex_start c
  | LStr acc =>
      if c =? 34 then Some ([TString (rev acc)], LStart)
      else if c =? 92 then Some ([], LEsc acc)
      else if c <? 0x20 then None
      else Some ([], LStr (c :: acc))
  | LEsc acc =>
      if c =? 117 then Some ([], LHex acc 4 0)
      else match unescape c with
           | Some x => Some ([], LStr (x :: acc))
           | None => None
           end
  | LHex acc togo v =>
      match hex_value c, togo with
      | Some d, 1%nat => Some ([], LStr (v * 16 + d :: acc))
      | Some d, S togo' => Some ([], LHex acc togo' (v * 16 + d))
      | _, _ => None
      end
  | LNum ph acc =>
      match num_next ph c with
      | Some ph' => Some ([], LNum ph' (c :: acc))
      | None =>
          if num_complete ph then
            match lex_start c with
            | Some (ts, st') => Some (TNumber (rev acc) :: ts, st')
            | None => None
            end
          else None
      end
  | LLit l matched =>
      match literal_text l !! matched with
      | Some e =>
          if c =? e then
            if Nat.eqb (S matched) (length (literal_text l))
            then Some ([literal_token l], LStart)
            else Some ([], LLit l (S matched))
          else None
      | None => None
      end
  end.

(** End of the text: only between tokens or after a complete number. *)
Definition lex_end (st : lstate) : option (list token) :=
  match st with
  | LStart => Some []
  | LNum ph acc => if num_complete ph then Some [TNumber (rev acc)] else None
  | _ => None
  end.

Fixpoint lex_from (st : lstate) (s : jsstring) : option (list token) :=
  match s with
  | [] => lex_end st
  | c :: r =>
      match lex_step st c with
      | Some (ts, st') =>
          match lex_from st' r with
          | Some ts' => Some (ts ++ ts')
          | None => None
          end
      | None => None
      end
  end.

Definition lex (s : jsstring) : option (list token) := lex_from LStart s.

(** Open containers, innermost first; an object frame holds the key
    whose value is being read. *)
Inductive frame :=
| FArray (items_rev : list json)
| FObject (members_rev : list (jsstring * json)) (key : option jsstring).

Inductive expect :=
| EValue          (* a value *)
| EValueOrClose   (* just after '[' *)
| EKeyOrClose     (* just after '{' *)
| EKey            (* after ',' in an object *)
| EColon          (* after a key *)
| ESep.           (* after a value in a container *)

Inductive pstate :=
| PExpect (e : expect) (stack : list frame)
| PDone (v : json).

(** A value is complete: it is the result, or goes into the innermost
    open container. *)
Definition complete (v : json) (stack : list frame) : option pstate :=
  match stack with
  | [] => Some (PDone v)
  | FArray items :: st => Some (PExpect ESep (FArray (v :: items) :: st))
  | FObject ms (Some k) :: st =>
      Some (PExpect ESep (FObject ((k, v) :: ms) None :: st))
  | FObject _ None :: _ => None
  end.

Definition begin_value (t : token) (stack : list frame) : option pstate :=
  match t with
  | TNull => complete JNull stack
  | TTrue => complete (JBool true) stack
  | TFalse => complete (JBool false) stack
  | TNumber l => complete (JNumber l) stack
  | TString s => complete (JString s) stack
  | TLBracket => Some (PExpect EValueOrClose (FArray [] :: stack))
  | TLBrace => Some (PExpect EKeyOrClose (FObject [] None :: stack))
  | _ => None
  end.

Definition close_array (stack : list frame) : option pstate :=
  match stack with
  | FArray items :: st => complete (JArray (rev items)) st
  | _ => None
  end.

Definition close_object (stack : list frame) : option pstate :=
  match stack with
  | FObject ms None :: st => complete (JObject (rev ms)) st
  | _ => None
  end.

Definition take_key (k : jsstring) (stack : list frame) : option pstate :=
  match stack with
  | FObject ms None :: st => Some (PExpect EColon (FObject ms (Some k) :: st))
  | _ => None
  end.

Definition parse_step (ps : pstate) (t : token) : option pstate :=
  match ps with
  | PDone _ => None
  | PExpect e stack =>
      match e, t with
      | EValue, _ => begin_value t stack
      | EValueOrClose, TRBracket => close_array stack
      | EValueOrClose, _ => begin_value t stack
      | EKeyOrClose, TRBrace => close_object stack
      | EKeyOrClose, TString k => take_key k stack
      | EKey, TString k => take_key k stack
      | EColon, TColon => Some (PExpect EValue stack)
      | ESep, TComma =>
          match stack with
          | FArray _ :: _ => Some (PExpect EValue stack)
          | FObject _ None :: _ => Some (PExpect EKey stack)
          | _ => None
          end
      | ESep, TRBracket => close_array stack
      | ESep, TRBrace => close_object stack
      | _, _ => None
      end
  end.

Fixpoint parse_from (ps : pstate) (ts : list token) : option json :=
  match ts with
  | [] => match ps with PDone v => Some v | _ => None end
  | t :: r =>
      match parse_step ps t with
      | Some ps' => parse_from ps' r
      | None => None
      end
  end.

(** [JSON.parse(text)]: [None] where JavaScript throws a SyntaxError. *)
Definition parse (text : jsstring) : option json :=
  match lex text with
  | Some ts => parse_from (PExpect EValue []) ts
  | None => None
  end.

Definition accepts (text : jsstring) : bool :=
  match parse text with Some _ => true | None => false end.

End Json.

(** ** The file system, as far as the watcher touches it *)
Module Fs.

(** A resolved absolute path: its components from the root. *)
Abbreviation path := (list string).

Inductive exn :=
| ENOENT | ENOTDIR | EEXIST | EISDIR | EACCES | ENOSPC | EROFS | ENAMETOOLONG
| SyntaxError.

(** What a path names: a regular file (its bytes, and whether this
    process may read it), a directory that takes new entries, or a
    directory that refuses the entries asked of it, with the error
    the attempt throws ([EACCES] for a directory of mode 555, [EROFS]
    on a read-only file system, [ENOSPC] on a full one,
    [ENAMETOOLONG] where the name is one the file system does not
    take, and so on). *)
Inductive node :=
| File (content : list byte) (readable : bool)
| Dir
| Sealed (refusal : exn).

Abbreviation tree := (gmap (list string) node).

(** The root is always a directory; it refuses entries when the tree
    says so. *)
Definition root (t : tree) : node :=
  match t !! [] with Some (Sealed e) => Sealed e | _ => Dir end.

Definition lookup_node (t : tree) (p : path) : option node :=
  match p with [] => Some (root t) | _ => t !! p end.

(** [existsSync(p)] *)
Definition existsSync (t : tree) (p : path) : bool :=
  match lookup_node t p with Some _ => true | None => false end.

(** Whether a regular file sits on the way to [p], above it. *)
Definition file_above (t : tree) (p : path) : bool :=
  existsb (fun k => match t !! take k p with
                    | Some (File _ _) => true
                    | _ => false
                    end)
          (seq 1 (length p - 1)).

(** The error for a path at which nothing is: [ENOTDIR] when a regular
    file is on the way, [ENOENT] otherwise. *)
Definition absent (t : tree) (p : path) : exn :=
  if file_above t p then ENOTDIR else ENOENT.

(** [readFileSync(p)]: the bytes, or the error thrown. *)
Definition readFileSync (t : tree) (p : path) : exn + list byte :=
  match lookup_node t p with
  | Some (File content true) => inr content
  | Some (File _ false) => inl EACCES
  | Some _ => inl EISDIR
  | None => inl (absent t p)
  end.

Definition dirname (p : path) : path := removelast p.

(** [writeFileSync(p, data)]: replaces the content of an existing
    file, or creates the file in an existing directory unless that
    directory refuses it; [watchAgent] only calls it where nothing
    exists. *)
Definition writeFileSync (t : tree) (p : path) (data : list byte) : exn + tree :=
  match lookup_node t p with
  | Some (File _ r) => inr (<[p := File data r]> t)
  | Some _ => inl EISDIR
  | None =>
      match lookup_node t (dirname p) with
      | Some Dir => inr (<[p := File data true]> t)
      | Some (Sealed e) => inl e
      | Some (File _ _) => inl ENOTDIR
      | None => inl (absent t p)
      end
  end.

(** [mkdirSync(p, { recursive: true })]: walks down from [at_]; a
    regular file on the way is an error, and so is a missing segment
    below a directory that refuses entries; every other missing
    directory is created.  When it fails it has created nothing: what
    is missing lies below the deepest directory that exists, which is
    where the refusal comes from, and a regular file is met before
    anything is missing. *)
Fixpoint mkdir_from (t : tree) (at_ : path) (rest : list string) : exn + tree :=
  match rest with
  | [] => inr t
  | seg :: rest' =>
      let q := at_ ++ [seg] in
      match lookup_node t q with
      | Some (File _ _) => inl (match rest' with [] => EEXIST | _ => ENOTDIR end)
      | Some _ => mkdir_from t q rest'
      | None =>
          match lookup_node t at_ with
          | Some (Sealed e) => inl e
          | _ => mkdir_from (<[q := Dir]> t) q rest'
          end
      end
  end.

Definition mkdirSync_recursive (t : tree) (p : path) : exn + tree :=
  mkdir_from t [] p.

(** [path.join(base, rel)] on POSIX, for a resolved [base]: the
    segments of [rel] are entered one by one, [.] and empty segments
    stay, [..] goes up. *)
Fixpoint split_slash (s : string) : list string :=
  match s with
  | EmptyString => [EmptyString]
  | String a r =>
      if Ascii.eqb a "/" then EmptyString :: split_slash r
      else match split_slash r with
           | seg :: segs => String a seg :: segs
           | [] => [String a EmptyString]
           end
  end.

Definition enter (p : path) (seg : string) : path :=
  if String.eqb seg "" || String.eqb seg "." then p
  else if String.eqb seg ".." then removelast p
  else p ++ [seg].

Definition join (base : path) (rel : string) : path :=
  fold_left enter (split_slash rel) base.

End Fs.

(** ** The class [StatusLineWatcher] *)
Module Watcher.
Import Fs JsString.

(** [StatusLineEvent]; the timestamp is the clock reading that
    [toISOString] formatted. *)
Record StatusLineEvent := {
  agentName : string;
  data : Json.json;
  timestamp : Z;
}.

(** What the logger is told. *)
Inductive message :=
| MsgWatching (agent : string) (p : path)
| MsgWatchFailed (agent : string) (e : exn)
| MsgParseFailed (line : jsstring)
| MsgReadFailed (e : exn).

(** What leaves the watcher: [update] events to the subscribers and
    calls of the logger. *)
Inductive output :=
| Update (ev : StatusLineEvent)
| LogDebug (m : message)
| LogError (m : message).

Inductive eventType := Change | Rename.

(** An [FSWatcher] returned by [watch(filePath, listener)]: the names
    its listener closed over, and whether it is still open. *)
Record FSWatcher := {
  w_agent : string;
  w_path : path;
  w_open : bool;
}.

(** The fields of the instance; a watcher in [watchers] is a reference
    into the world's table of [FSWatcher] objects. *)
Record instance := {
  teamName : string;
  watchers : gmap string nat;
  fileOffsets : gmap (list string) nat;
  stopped : bool;
}.

(** The instance and its surroundings: the files, whether the platform
    grants a watch on a path, every [FSWatcher] created so far, the
    clock, and the outputs so far (oldest first).  The clock is any
    sequence of readings: [clock n] is what [new Date()] returns when
    [n] readings were taken before, and [dates] counts the readings
    taken.  Files and watches may change between two calls; during one
    synchronous call they change only through the call itself.
    Subscribers and the logger are taken not to throw. *)
Record world := {
  files : tree;
  watchable : path -> bool;
  heap : list FSWatcher;
  clock : nat -> Z;
  dates : nat;
  this : instance;
  trace : list output;
}.

Definition new_instance (team : string) : instance :=
  {| teamName := team; watchers := ∅; fileOffsets := ∅; stopped := false |}.

Definition with_files (f : tree -> tree) (w : world) : world :=
  {| files := f (files w); watchable := watchable w; heap := heap w;
     clock := clock w; dates := dates w; this := this w; trace := trace w |}.

Definition with_heap (f : list FSWatcher -> list FSWatcher) (w : world) : world :=
  {| files := files w; watchable := watchable w; heap := f (heap w);
     clock := clock w; dates := dates w; this := this w; trace := trace w |}.

Definition with_dates (f : nat -> nat) (w : world) : world :=
  {| files := files w; watchable := watchable w; heap := heap w;
     clock := clock w; dates := f (dates w); this := this w; trace := trace w |}.

Definition with_this (f : instance -> instance) (w : world) : world :=
  {| files := files w; watchable := watchable w; heap := heap w;
     clock := clock w; dates := dates w; this := f (this w); trace := trace w |}.

Definition with_trace (f : list output -> list output) (w : world) : world :=
  {| files := files w; watchable := watchable w; heap := heap w;
     clock := clock w; dates := dates w; this := this w; trace := f (trace w) |}.

Definition set_watchers (m : gmap string nat) (i : instance) : instance :=
  {| teamName := teamName i; watchers := m;
     fileOffsets := fileOffsets i; stopped := stopped i |}.

Definition set_fileOffsets (m : gmap (list string) nat) (i : instance) : instance :=
  {| teamName := teamName i; watchers := watchers i;
     fileOffsets := m; stopped := stopped i |}.

Definition set_stopped (b : bool) (i : instance) : instance :=
  {| teamName := teamName i; watchers := watchers i;
     fileOffsets := fileOffsets i; stopped := b |}.

(** The state changes the methods are made of. *)

Definition put_outputs (os : list output) : world -> world :=
  with_trace (fun t => t ++ os).

(** [k] more readings of the clock were taken. *)
Definition take_dates (k : nat) : world -> world :=
  with_dates (fun d => k + d)%nat.

Definition put_offset (p : path) (n : nat) : world -> world :=
  with_this (fun i => set_fileOffsets (<[p := n]> (fileOffsets i)) i).

Definition drop_offset (p : path) : world -> world :=
  with_this (fun i => set_fileOffsets (delete p (fileOffsets i)) i).

Definition put_watcher (agent : string) (watcher : nat) : world -> world :=
  with_this (fun i => set_watchers (<[agent := watcher]> (watchers i)) i).

Definition drop_watcher (agent : string) : world -> world :=
  with_this (fun i => set_watchers (delete agent (watchers i)) i).

Definition open_watcher (agent : string) (filePath : path) : world -> world :=
  with_heap (fun h => h ++ [{| w_agent := agent; w_path := filePath;
                               w_open := true |}]).

Definition close_watcher (fw : FSWatcher) : FSWatcher :=
  {| w_agent := w_agent fw; w_path := w_path fw; w_open := false |}.

Definition shut_watcher (watcher : nat) : world -> world :=
  with_heap (alter close_watcher watcher).

(** *** Computations: state passing with exceptions *)

Inductive outcome (A : Type) :=
| Ret (a : A)
| Throw (e : exn).
Arguments Ret {A} a.
Arguments Throw {A} e.

Definition M (A : Type) : Type := world -> outcome A * world.

Definition ret {A} (a : A) : M A := fun w => (Ret a, w).

Definition throw {A} (e : exn) : M A := fun w => (Throw e, w).

Definition bind {A B} (m : M A) (k : A -> M B) : M B :=
  fun w => match m w with
           | (Ret a, w') => k a w'
           | (Throw e, w') => (Throw e, w')
           end.

(** [try { m } catch (err) { handler(err) }]: what [m] did to the
    state before throwing stays done. *)
Definition try_catch {A} (m : M A) (handler : exn -> M A) : M A :=
  fun w => match m w with
           | (Ret a, w') => (Ret a, w')
           | (Throw e, w') => handler e w'
           end.

Definition gets {A} (f : world -> A) : M A := fun w => (Ret (f w), w).

Definition modify (f : world -> world) : M unit := fun w => (Ret tt, f w).

Definition lift {A} (r : exn + A) : M A :=
  match r with inr a => ret a | inl e => throw e end.

Declare Scope M_scope.
Delimit Scope M_scope with M.
Bind Scope M_scope with M.
Notation "x <- m ;; k" := (bind m (fun x => k))
  (at level 100, m at next level, right associativity) : M_scope.
Notation "m ;; k" := (bind m (fun _ => k))
  (at level 100, right associativity) : M_scope.
Local Open Scope M_scope.

(** [for (const x of l) body(x)] *)
Fixpoint forEach {A} (l : list A) (body : A -> M unit) : M unit :=
  match l with
  | [] => ret tt
  | x :: r => body x ;; forEach r body
  end.

(** *** What the class asks of the runtime *)

Definition fs_existsSync (p : path) : M bool :=
  gets (fun w => existsSync (files w) p).

(** [readFileSync(p)]: a Buffer. *)
Definition fs_readFileSync (p : path) : M (list byte) :=
  fun w => lift (readFileSync (files w) p) w.

(** [readFileSync(p, "utf-8")]: the decoded string. *)
Definition fs_readFileSync_utf8 (p : path) : M jsstring :=
  bytes <- fs_readFileSync p ;; ret (Utf8.decode bytes).

Definition fs_writeFileSync (p : path) (content : list byte) : M unit :=
  fun w => match writeFileSync (files w) p content with
           | inr t => (Ret tt, with_files (fun _ => t) w)
           | inl e => (Throw e, w)
           end.

Definition fs_mkdirSync_recursive (p : path) : M unit :=
  fun w => match mkdirSync_recursive (files w) p with
           | inr t => (Ret tt, with_files (fun _ => t) w)
           | inl e => (Throw e, w)
           end.

(** [watch(filePath, listener)]: a new open [FSWatcher] when the file
    is there and the platform grants the watch; the listener is the
    arrow function of [watchAgent], which closed over [agent] and
    [filePath]. *)
Definition fs_watch (filePath : path) (agent : string) : M nat :=
  fun w =>
    if negb (existsSync (files w) filePath) then (Throw ENOENT, w)
    else if negb (watchable w filePath) then (Throw ENOSPC, w)
    else (Ret (length (heap w)), open_watcher agent filePath w).

(** [watcher.close()] *)
Definition close (watcher : nat) : M unit := modify (shut_watcher watcher).

(** [new Date()]: the next reading of the clock. *)
Definition new_Date : M Z :=
  fun w => (Ret (clock w (dates w)), take_dates 1 w).

Definition log_debug (m : message) : M unit := modify (put_outputs [LogDebug m]).

Definition log_error (m : message) : M unit := modify (put_outputs [LogError m]).

(** [this.emit("update", event)] *)
Definition emit_update (ev : StatusLineEvent) : M unit :=
  modify (put_outputs [Update ev]).

(** [JSON.parse(line)], throwing on malformed text. *)
Definition JSON_parse (line : jsstring) : M Json.json :=
  match Json.parse line with
  | Some v => ret v
  | None => throw SyntaxError
  end.

(** [this.fileOffsets.set(p, n)] and the other updates of the two
    maps. *)
Definition fileOffsets_set (p : path) (n : nat) : M unit := modify (put_offset p n).

Definition fileOffsets_delete (p : path) : M unit := modify (drop_offset p).

Definition watchers_set (agent : string) (watcher : nat) : M unit :=
  modify (put_watcher agent watcher).

Definition watchers_delete (agent : string) : M unit := modify (drop_watcher agent).

Section Methods.

(** [teamDir] comes from [./paths.js], which is not part of the
    source at hand; it is taken as given, the path it returns
    resolved. *)
Variable teamDir : string -> path.

(** Lines 10-16. *)
Definition statusLineDir (team : string) : path :=
  join (teamDir team) "statusline".

Definition statusLineLogPath (team agent : string) : path :=
  join (statusLineDir team) (String.append agent ".jsonl").

(** Lines 78-83. *)
Definition ensureDir : M unit :=
  team <- gets (fun w => teamName (this w)) ;;
  let dir := statusLineDir team in
  present <- fs_existsSync dir ;;
  if negb present then fs_mkdirSync_recursive dir else ret tt.

(** The body of the [for] loop of [readNewLines], lines 159-170. *)
Definition readLine (agent : string) (line : jsstring) : M unit :=
  if decide (trim line = []) then ret tt
  else
    try_catch
      (data <- JSON_parse line ;;
       time <- new_Date ;;
       emit_update {| agentName := agent; data := data; timestamp := time |})
      (fun _ => log_debug (MsgParseFailed line)).

(** Lines 148-176. *)
Definition readNewLines (agent : string) (filePath : path) : M unit :=
  try_catch
    (content <- fs_readFileSync_utf8 filePath ;;
     offset <- gets (fun w => default 0%nat (fileOffsets (this w) !! filePath)) ;;
     let newContent := slice content offset in
     fileOffsets_set filePath (length content) ;;
     if decide (trim newContent = []) then ret tt
     else
       let lines := split_lf (trim newContent) in
       forEach lines (readLine agent))
    (fun err => log_debug (MsgReadFailed err)).

(** Lines 88-118. *)
Definition watchAgent (agent : string) : M unit :=
  halted <- gets (fun w => stopped (this w)) ;;
  if halted then ret tt
  else
    team <- gets (fun w => teamName (this w)) ;;
    let filePath := statusLineLogPath team agent in
    present <- fs_existsSync filePath ;;
    (if negb present then fs_writeFileSync filePath [] else ret tt) ;;
    try_catch
      (stats <- fs_readFileSync filePath ;;
       fileOffsets_set filePath (length stats))
      (fun _ => fileOffsets_set filePath 0) ;;
    try_catch
      (watcher <- fs_watch filePath agent ;;
       watchers_set agent watcher ;;
       log_debug (MsgWatching agent filePath))
      (fun err => log_error (MsgWatchFailed agent err)).

(** Lines 123-131. *)
Definition unwatchAgent (agent : string) : M unit :=
  found <- gets (fun w => watchers (this w) !! agent) ;;
  match found with
  | Some watcher => close watcher ;; watchers_delete agent
  | None => ret tt
  end ;;
  team <- gets (fun w => teamName (this w)) ;;
  let filePath := statusLineLogPath team agent in
  fileOffsets_delete filePath.

(** Lines 136-143. *)
Definition stop : M unit :=
  modify (with_this (set_stopped true)) ;;
  entries <- gets (fun w => map_to_list (watchers (this w))) ;;
  forEach entries (fun entry => close (snd entry)) ;;
  modify (with_this (set_watchers ∅)) ;;
  modify (with_this (set_fileOffsets ∅)).

(** The listener [watchAgent] hands to [watch], lines 107-111. *)
Definition listener (agent : string) (filePath : path) (ev : eventType) : M unit :=
  match ev with
  | Change => readNewLines agent filePath
  | Rename => ret tt
  end.

(** The runtime delivers an event to an [FSWatcher]: an open one
    runs its listener, a closed one is silent. *)
Definition notify (watcher : nat) (ev : eventType) : M unit :=
  found <- gets (fun w => heap w !! watcher) ;;
  match found with
  | Some fw => if w_open fw then listener (w_agent fw) (w_path fw) ev
               else ret tt
  | None => ret tt
  end.

End Methods.

(** *** Vocabulary for the statements *)

(** The [update] events among some outputs, in order. *)
Fixpoint updates (t : list output) : list StatusLineEvent :=
  match t with
  | [] => []
  | Update ev :: r => ev :: updates r
  | _ :: r => updates r
  end.

(** What one line of a batch gives rise to: the loop body of
    [readNewLines] read as a function ([readLine_run] below proves
    them equal). *)
Definition lineOutputs (agent : string) (time : Z) (line : jsstring) : list output :=
  if decide (trim line = []) then []
  else match Json.parse line with
       | Some v => [Update {| agentName := agent; data := v; timestamp := time |}]
       | None => [LogDebug (MsgParseFailed line)]
       end.

(** What the lines of a batch give rise to when [n] readings of the
    clock were taken before: each update event takes one more. *)
Fixpoint linesOutputs (agent : string) (clock : nat -> Z) (n : nat)
    (lines : list jsstring) : list output :=
  match lines with
  | [] => []
  | line :: rest =>
      let os := lineOutputs agent (clock n) line in
      os ++ linesOutputs agent clock (length (updates os) + n) rest
  end.

(** What a slice of new content gives rise to: the part of
    [readNewLines] after the offset is stored ([readNewLines_read]
    below). *)
Definition chunkOutputs (agent : string) (clock : nat -> Z) (n : nat)
    (chunk : jsstring) : list output :=
  if decide (trim chunk = []) then []
  else linesOutputs agent clock n (split_lf (trim chunk)).

(** The producer appends [extra] to the file at [p]. *)
Definition appendFile (p : path) (extra : list byte) : world -> world :=
  with_files (fun t => match t !! p with
                       | Some (File content r) => <[p := File (content ++ extra) r]> t
                       | _ => t
                       end).

(** The file at [p] can be there after the create-if-missing step of
    [watchAgent]: it exists, or its directory does and takes new
    entries. *)
Definition creatable (t : tree) (p : path) : Prop :=
  existsSync t p = true \/ lookup_node t (dirname p) = Some Dir.

(** Every open [FSWatcher] is one the instance still holds in
    [watchers]. *)
Definition all_held (w : world) : Prop :=
  forall h fw, heap w !! h = Some fw -> w_open fw = true ->
    exists agent, watchers (this w) !! agent = Some h.

(** The directories on the way from the root down to [p], [p]
    included. *)
Definition ancestors (p : path) : list path :=
  map (fun n => take n p) (seq 1 (length p)).


End Watcher.

(** ** Concrete worlds, for the worked cases *)
Module Example.
Import Fs JsString Watcher.
Local Open Scope string_scope.

(** A [teamDir] to run the methods with. *)
Definition homeTeamDir (team : string) : path := ["home"; "teams"; team].

Definition dir : path := ["home"; "teams"; "A"; "statusline"].
Definition log : path := ["home"; "teams"; "A"; "statusline"; "agent1.jsonl"].

(** [/home/teams/A/statusline] and nothing in it. *)
Definition disk : tree :=
  <[dir := Dir]> (<[["home"; "teams"; "A"] := Dir]>
    (<[["home"; "teams"] := Dir]> (<[["home"] := Dir]> ∅))).

(** A regular file where the directory of team [A] should be. *)
Definition disk_blocked : tree :=
  <[["home"; "teams"; "A"] := File [] true]>
    (<[["home"; "teams"] := Dir]> (<[["home"] := Dir]> ∅)).

(** [/home/teams/A/statusline] with mode 555: nothing can be created
    in it. *)
Definition disk_sealed : tree := <[dir := Sealed EACCES]> disk.

(** A new instance for team [A]; the platform grants every watch and
    the clock reads 1000, 1001, ... *)
Definition fresh : world :=
  {| files := disk; watchable := fun _ => true; heap := [];
     clock := fun n => (1000 + Z.of_nat n)%Z; dates := 0;
     this := new_instance "A"; trace := [] |}.

(** The same, with [content] in the log of [agent1]. *)
Definition holding (content : list byte) (readable : bool) : world :=
  with_files (fun t => <[log := File content readable]> t) fresh.

(** The platform stops granting watches, or grants them again. *)
Definition refuse_watches (w : world) : world :=
  {| files := files w; watchable := fun _ => false; heap := heap w;
     clock := clock w; dates := dates w; this := this w; trace := trace w |}.

Definition grant_watches (w : world) : world :=
  {| files := files w; watchable := fun _ => true; heap := heap w;
     clock := clock w; dates := dates w; this := this w; trace := trace w |}.

(** The world a method call leaves behind. *)
Definition after {A} (m : M A) (w : world) : world := snd (m w).

Definition line (text : string) : list byte := bytes_of text ++ [x0a].

(** Three times U+00E9 and a line feed: seven bytes, four code
    units. *)
Definition accented : list byte := [xc3; xa9; xc3; xa9; xc3; xa9; x0a].

(** Twice U+00E9 and a line feed: five bytes, three code units. *)
Definition accents : list byte := [xc3; xa9; xc3; xa9; x0a].

End Example.

(** ** The command and the settings that make Claude Code write the log
    (lines 34-57) *)
Module Command.
Import JsString.

Definition BACKSLASH : N := 92.
Definition APOSTROPHE : N := 39.

(** [s.replace(/c/g, by)] for a single code unit [c]. *)
Definition replaceEach (c : N) (by_ : jsstring) (s : jsstring) : jsstring :=
  flat_map (fun x => if x =? c then by_ else [x]) s.

(** [parts.join(sep)] *)
Fixpoint join_with (sep : jsstring) (parts : list jsstring) : jsstring :=
  match parts with
  | [] => []
  | [p] => p
  | p :: rest => p ++ sep ++ join_with sep rest
  end.

(** Line 37: every backslash is doubled, then every apostrophe gets a
    backslash. *)
Definition escapedPath (logFilePath : jsstring) : jsstring :=
  replaceEach APOSTROPHE [BACKSLASH; APOSTROPHE]
    (replaceEach BACKSLASH [BACKSLASH; BACKSLASH] logFilePath).

(** What [escapedPath] makes of one code unit. *)
Definition escapeUnit (c : N) : jsstring :=
  if c =? BACKSLASH then [BACKSLASH; BACKSLASH]
  else if c =? APOSTROPHE then [BACKSLASH; APOSTROPHE]
  else [c].

(** Lines 38-44.  In the text below an apostrophe stands for the double
    quote (see [of_string]); the two real apostrophes, which delimit the
    argument of [-c], are written as code units.  The two characters
    backslash and n are those of the template literal. *)
Definition buildStatusLineCommand (logFilePath : jsstring) : jsstring :=
  join_with [32]
    [of_string "python3 -c";
     APOSTROPHE :: of_string "import sys,json;";
     of_string "d=json.load(sys.stdin);";
     of_string "open('" ++ escapedPath logFilePath
       ++ of_string "','a').write(json.dumps(d)+'\n');";
     of_string "print(d.get('model',{}).get('display_name',''))" ++ [APOSTROPHE]].

(** The text of the command before and after the path. *)
Definition commandHead : jsstring :=
  of_string "python3 -c " ++ APOSTROPHE
    :: of_string "import sys,json; d=json.load(sys.stdin); open('".

Definition commandTail : jsstring :=
  of_string "','a').write(json.dumps(d)+'\n'); print(d.get('model',{}).get('display_name',''))"
    ++ [APOSTROPHE].

(** Lines 50-57: the object, as the JSON value it is. *)
Definition buildStatusLineSettings (logFilePath : jsstring) : Json.json :=
  Json.JObject
    [(of_string "statusLine",
      Json.JObject
        [(of_string "type", Json.JString (of_string "command"));
         (of_string "command", Json.JString (buildStatusLineCommand logFilePath))])].

(** The apostrophes of a text that no backslash escapes, for a reader
    to whom a backslash escapes the code unit after it. *)
Fixpoint bare_apostrophes (escaped : bool) (s : jsstring) : nat :=
  match s with
  | [] => 0%nat
  | c :: r =>
      if escaped then bare_apostrophes false r
      else if c =? BACKSLASH then bare_apostrophes true r
      else Nat.add (if c =? APOSTROPHE then 1%nat else 0%nat)
                   (bare_apostrophes false r)
  end.

End Command.

(** ** More vocabulary for statements about the watcher *)
Module Shapes.
Import Fs JsString Watcher.

(** Whether a name has a slash in it; one that has none is a single
    path segment. *)
Fixpoint has_slash (s : string) : bool :=
  match s with
  | EmptyString => false
  | String a r => Ascii.eqb a "/" || has_slash r
  end.

(** Lines, each ended by a line feed, as the producer appends them. *)
Definition complete_lines (ls : list jsstring) : jsstring :=
  flat_map (fun l => l ++ [LF]) ls.

(** One update event per value, each with the next reading of the
    clock. *)
Fixpoint eventsOf (agent : string) (clock : nat -> Z) (n : nat)
    (vs : list Json.json) : list StatusLineEvent :=
  match vs with
  | [] => []
  | v :: rest =>
      {| agentName := agent; data := v; timestamp := clock n |}
      :: eventsOf agent clock (S n) rest
  end.

(** A line as the producer writes it: text without a line feed that
    parses, with its payload. *)
Definition well_formed (l : jsstring) (v : Json.json) : Prop :=
  single_line l /\ Json.parse l = Some v.

(** The payloads of the lines that parse, in order. *)
Definition parsed (ls : list jsstring) : list Json.json := omap Json.parse ls.

End Shapes.


(** ** The life of an instance: construction, calls, notifications *)
Module Protocol.
Import Fs JsString Watcher.

(** Lines 69-73, with the field initialisers of lines 65-67: a new
    instance in its surroundings, no [FSWatcher] created and nothing
    put out yet. *)
Definition construct (team : string) (t : tree) (grants : path -> bool)
    (clk : nat -> Z) : world :=
  {| files := t; watchable := grants; heap := []; clock := clk; dates := 0;
     this := new_instance team; trace := [] |}.

(** What is done to an instance: the four public methods, called by
    the client, and the events the runtime delivers to the watchers. *)
Inductive call :=
| EnsureDir
| WatchAgent (agent : string)
| UnwatchAgent (agent : string)
| Stop
| Notify (watcher : nat) (ev : eventType).

(** Between two calls the files and the platform's readiness to grant
    watches may change in any way; nothing else does. *)
Definition drift (w w' : world) : Prop :=
  this w' = this w /\ heap w' = heap w /\ trace w' = trace w /\
  clock w' = clock w /\ dates w' = dates w.

(** What holds of every world an instance can be in: no open watcher
    is lost, and a stopped instance has empty maps. *)
Definition settled (w : world) : Prop :=
  all_held w /\
  (stopped (this w) = true -> watchers (this w) = ∅ /\ fileOffsets (this w) = ∅).

Section Methods.
Variable teamDir : string -> path.

Definition perform (c : call) : M unit :=
  match c with
  | EnsureDir => ensureDir teamDir
  | WatchAgent agent => watchAgent teamDir agent
  | UnwatchAgent agent => unwatchAgent teamDir agent
  | Stop => stop
  | Notify watcher ev => notify watcher ev
  end.

(** A call that registers a name which has a watcher already. *)
Definition reregisters (c : call) (w : world) : Prop :=
  match c with
  | WatchAgent agent => is_Some (watchers (this w) !! agent)
  | _ => False
  end.

(** The worlds an instance can be in when no name is registered
    while it has a watcher. *)
Inductive reachable : world -> Prop :=
| reach_construct team t grants clk :
    reachable (construct team t grants clk)
| reach_perform w c :
    reachable w -> ~ reregisters c w -> reachable (snd (perform c w))
| reach_drift w w' :
    reachable w -> drift w w' -> reachable w'.

End Methods.

End Protocol.

(** * Facts about the decoder *)
Module Utf8Facts.
Import Utf8.

Lemma units_length cp : (length (units cp) <= 2)%nat.
Proof. unfold units. destruct (cp <? 0x10000); simpl; lia. Qed.

Lemma start_budget b :
  (length (fst (start b)) + held (snd (start b)) <= 1)%nat.
Proof.
  unfold start.
  repeat match goal with
         | |- context [if ?c then _ else _] => destruct c
         end; simpl; lia.
Qed.

(** A byte never yields more code units than the bytes it completes. *)
Lemma step_budget st b :
  (length (fst (step st b)) + held (snd (step st b)) <= held st + 1)%nat.
Proof.
  destruct st as [|needed seen cp lo hi]; [apply start_budget|].
  unfold step.
  destruct ((lo <=? b) && (b <=? hi)).
  - destruct (Nat.eqb (S seen) needed); cbn [fst snd held length].
    + pose proof (units_length (N.lor (N.shiftl cp 6) (N.land b 63))). lia.
    + lia.
  - pose proof (start_budget b). destruct (start b) as [out st'].
    cbn [fst snd held length] in *. lia.
Qed.

Lemma run_budget bytes : forall st,
  (length (fst (run st bytes)) + held (snd (run st bytes))
   <= held st + length bytes)%nat.
Proof.
  induction bytes as [|b rest IH]; intros st; simpl; [lia|].
  pose proof (step_budget st (Byte.to_N b)) as Hs.
  destruct (step st (Byte.to_N b)) as [out st'].
  specialize (IH st'). destruct (run st' rest) as [out' st''].
  simpl in *. rewrite length_app. lia.
Qed.

Lemma flush_held st : (length (flush st) <= held st)%nat.
Proof. destruct st; simpl; lia. Qed.

(** The decoded string is never longer than the file. *)
Lemma decode_length bytes : (length (decode bytes) <= length bytes)%nat.
Proof.
  unfold decode, resume. pose proof (run_budget bytes Idle) as H.
  destruct (run Idle bytes) as [out st]. simpl in *.
  pose proof (flush_held st). rewrite length_app. lia.
Qed.

Lemma run_app a : forall st b,
  run st (a ++ b) =
    (fst (run st a) ++ fst (run (snd (run st a)) b),
     snd (run (snd (run st a)) b)).
Proof.
  induction a as [|x a IH]; intros st b; simpl.
  - destruct (run st b); reflexivity.
  - destruct (step st (Byte.to_N x)) as [out st'].
    rewrite IH. destruct (run st' a) as [o1 s1]. simpl.
    destruct (run s1 b) as [o2 s2]. simpl. by rewrite app_assoc.
Qed.

(** Decoding a file that grew: what was emitted for the old bytes,
    then the decoding of the new bytes resumed where the old ones
    left the decoder. *)
Lemma decode_app a b :
  decode (a ++ b) = emitted a ++ resume (state_after a) b.
Proof.
  unfold decode, resume, emitted, state_after. rewrite run_app.
  destruct (run Idle a) as [o1 s1]. simpl.
  destruct (run s1 b) as [o2 s2]. simpl. by rewrite app_assoc.
Qed.

Lemma run_ascii bytes :
  ascii_only bytes -> run Idle bytes = (map Byte.to_N bytes, Idle).
Proof.
  induction 1 as [|b rest Hb _ IH]; simpl; [done|].
  unfold start. apply N.leb_le in Hb. rewrite Hb, IH. done.
Qed.

Lemma decode_ascii bytes :
  ascii_only bytes -> decode bytes = map Byte.to_N bytes.
Proof.
  intros H. unfold decode, resume. rewrite run_ascii by done.
  simpl. by rewrite app_nil_r.
Qed.

Lemma resume_flush st : (length (flush st) <= length (resume st []))%nat.
Proof. unfold resume. simpl. lia. Qed.

(** Appending bytes never shortens the decoded string. *)
Lemma units_nonempty cp : (1 <= length (units cp))%nat.
Proof. unfold units. destruct (cp <? 0x10000); simpl; lia. Qed.

Lemma resume_cons st x b :
  resume st (x :: b) =
    fst (step st (Byte.to_N x)) ++ resume (snd (step st (Byte.to_N x))) b.
Proof.
  unfold resume. cbn [run].
  destruct (step st (Byte.to_N x)) as [out st']. cbn [fst snd].
  destruct (run st' b) as [o s]. by rewrite <- app_assoc.
Qed.

(** Appending bytes never shortens the decoded string. *)
Lemma resume_grows b : forall st,
  (length (flush st) <= length (resume st b))%nat.
Proof.
  induction b as [|x b IH]; intros st; [apply resume_flush|].
  rewrite resume_cons, length_app.
  destruct st as [|needed seen cp lo hi]; [simpl; lia|].
  unfold step.
  destruct ((lo <=? Byte.to_N x) && (Byte.to_N x <=? hi)).
  - destruct (Nat.eqb (S seen) needed); cbn [fst snd flush length].
    + pose proof (units_nonempty (N.lor (N.shiftl cp 6) (N.land (Byte.to_N x) 63))).
      lia.
    + specialize (IH (Pending needed (S seen)
                        (N.lor (N.shiftl cp 6) (N.land (Byte.to_N x) 63)) 128 191)).
      cbn [flush length] in IH. lia.
  - destruct (start (Byte.to_N x)) as [out st'].
    cbn [fst snd flush length]. lia.
Qed.

Lemma decode_length_app a b :
  (length (decode a) <= length (decode (a ++ b)))%nat.
Proof.
  rewrite decode_app. unfold decode at 1. unfold resume at 1.
  unfold emitted, state_after.
  destruct (run Idle a) as [o s]. simpl. rewrite !length_app.
  pose proof (resume_grows b s). lia.
Qed.

(** Two-byte and four-byte characters, a truncated sequence and an
    encoded surrogate. *)
Example decode_cases :
  decode [xc3; xa9; x0a] = [0xE9; 0xA] /\
  decode [xf0; x9f; x98; x80] = [0xD83D; 0xDE00] /\
  decode [xe2; x82] = [0xFFFD] /\
  decode [xed; xa0; x80] = [0xFFFD; 0xFFFD; 0xFFFD].
Proof. repeat split. Qed.

End Utf8Facts.

(** * Facts about [trim] and [split] *)
Module JsStringFacts.
Import JsString.

Lemma trimStart_blank w s : blank w -> trimStart (w ++ s) = trimStart s.
Proof. induction 1 as [|c w Hc _ IH]; simpl; [done|]. by rewrite Hc. Qed.

Lemma trimStart_split s : exists w, blank w /\ s = w ++ trimStart s.
Proof.
  induction s as [|c s [w [Hw Hs]]]; simpl.
  - exists []. split; [constructor|done].
  - destruct (is_js_ws c) eqn:Hc.
    + exists (c :: w). split; [by constructor|]. simpl. by rewrite <- Hs.
    + exists []. split; [constructor|done].
Qed.

Lemma trimStart_head s c r : trimStart s = c :: r -> is_js_ws c = false.
Proof.
  induction s as [|d s IH]; simpl; [done|].
  destruct (is_js_ws d) eqn:Hd; [done|]. intros [= <- _]. done.
Qed.

Lemma trimStart_keep c r : is_js_ws c = false -> trimStart (c :: r) = c :: r.
Proof. intros H. simpl. by rewrite H. Qed.

Lemma trimStart_app a b :
  trimStart a <> [] -> trimStart (a ++ b) = trimStart a ++ b.
Proof.
  induction a as [|c a IH]; simpl; [done|].
  destruct (is_js_ws c); [done|]. done.
Qed.

Lemma trimStart_nil s : trimStart s = [] <-> blank s.
Proof.
  split.
  - intros H. destruct (trimStart_split s) as [w [Hw Hs]].
    rewrite H, app_nil_r in Hs. by subst.
  - intros H. rewrite <- (app_nil_r s). by rewrite trimStart_blank.
Qed.

Lemma blank_rev w : blank w -> blank (rev w).
Proof. apply Forall_rev. Qed.

Lemma blank_app a b : blank a -> blank b -> blank (a ++ b).
Proof. apply Forall_app_2. Qed.

Lemma trimEnd_blank s w : blank w -> trimEnd (s ++ w) = trimEnd s.
Proof.
  intros H. unfold trimEnd. rewrite rev_app_distr.
  rewrite trimStart_blank by by apply blank_rev. done.
Qed.

Lemma trimEnd_split s : exists w, blank w /\ s = trimEnd s ++ w.
Proof.
  unfold trimEnd. destruct (trimStart_split (rev s)) as [w [Hw Hs]].
  exists (rev w). split; [by apply blank_rev|].
  rewrite <- rev_app_distr, <- Hs. by rewrite rev_involutive.
Qed.

Lemma rev_nil_inv {A} (l : list A) : rev l = [] -> l = [].
Proof. intros H. rewrite <- (rev_involutive l), H. done. Qed.

Lemma trimEnd_app a b :
  trimEnd b <> [] -> trimEnd (a ++ b) = a ++ trimEnd b.
Proof.
  intros H. unfold trimEnd in *. rewrite rev_app_distr, trimStart_app.
  - by rewrite rev_app_distr, rev_involutive.
  - intros E. apply H. by rewrite E.
Qed.

Lemma trimEnd_nil s : trimEnd s = [] <-> blank s.
Proof.
  unfold trimEnd. split.
  - intros H. apply rev_nil_inv, trimStart_nil in H.
    apply blank_rev in H. by rewrite rev_involutive in H.
  - intros H. apply blank_rev, trimStart_nil in H. by rewrite H.
Qed.

Lemma trim_split s : exists w1 w2, blank w1 /\ blank w2 /\ s = w1 ++ trim s ++ w2.
Proof.
  destruct (trimStart_split s) as [w1 [H1 Hs]].
  destruct (trimEnd_split (trimStart s)) as [w2 [H2 Ht]].
  exists w1, w2. repeat split; try done. unfold trim.
  by rewrite <- Ht.
Qed.

Lemma trim_blank s : blank s -> trim s = [].
Proof. intros H. unfold trim. apply trimStart_nil in H. by rewrite H. Qed.

Lemma trim_nil s : trim s = [] -> blank s.
Proof.
  intros H. destruct (trim_split s) as [w1 [w2 [H1 [H2 Hs]]]].
  rewrite H in Hs. rewrite Hs. by apply blank_app.
Qed.

Lemma single_line_app a b : single_line (a ++ b) <-> single_line a /\ single_line b.
Proof. unfold single_line. rewrite elem_of_app. tauto. Qed.

Lemma single_line_trimStart s : single_line s -> single_line (trimStart s).
Proof.
  intros H. destruct (trimStart_split s) as [w [_ Hs]].
  rewrite Hs in H. by apply single_line_app in H as [_ H].
Qed.

Lemma single_line_trimEnd s : single_line s -> single_line (trimEnd s).
Proof.
  intros H. destruct (trimEnd_split s) as [w [_ Hs]].
  rewrite Hs in H. by apply single_line_app in H as [H _].
Qed.

Lemma split_lf_nonempty s : split_lf s <> [].
Proof. destruct s as [|c s]; simpl; [done|]. destruct (c =? LF); [done|]. by destruct (split_lf s). Qed.

(** Text without a line feed is one line. *)
Lemma split_lf_line a : single_line a -> split_lf a = [a].
Proof.
  unfold single_line. induction a as [|c a IH]; simpl; [done|].
  intros H. apply not_elem_of_cons in H as [Hc Ha].
  destruct (N.eqb_spec c LF); [congruence|]. by rewrite IH.
Qed.

(** The first line ends at the first line feed. *)
Lemma split_lf_app a r :
  single_line a -> split_lf (a ++ LF :: r) = a :: split_lf r.
Proof.
  unfold single_line. induction a as [|c a IH]; simpl; [done|].
  intros H. apply not_elem_of_cons in H as [Hc Ha].
  destruct (N.eqb_spec c LF); [congruence|]. by rewrite IH.
Qed.

End JsStringFacts.

(** * Facts about [JSON.parse] *)
Module JsonFacts.
Import JsString Json JsStringFacts.

Lemma js_ws_cases c : is_js_ws c = true -> In c js_ws_units.
Proof.
  unfold is_js_ws, js_ws_units. intros H.
  repeat (apply orb_true_iff in H; destruct H as [H|H]);
    try (apply N.eqb_eq in H; subst c; simpl; tauto).
  apply andb_true_iff in H as [H1 H2].
  apply N.leb_le in H1. apply N.leb_le in H2.
  assert (c = 0x2000 \/ c = 0x2001 \/ c = 0x2002 \/ c = 0x2003 \/ c = 0x2004
          \/ c = 0x2005 \/ c = 0x2006 \/ c = 0x2007 \/ c = 0x2008
          \/ c = 0x2009 \/ c = 0x200A) as Hc by lia.
  simpl. intuition.
Qed.

(** Splits a goal about a whitespace unit into its 25 instances. *)
Ltac each_ws H :=
  apply js_ws_cases in H; unfold js_ws_units in H; simpl in H;
  repeat (destruct H as [H|H]; [subst|]); try contradiction.

(** Between tokens, whitespace that the lexer accepts produces nothing. *)
Lemma lex_start_ws c x :
  is_js_ws c = true -> lex_start c = Some x -> x = ([], LStart).
Proof. intros H. each_ws H; vm_compute; congruence. Qed.

(** Whitespace never completes or continues a token, except that it
    ends a complete number. *)
Lemma lex_step_ws st c ts st' T :
  is_js_ws c = true ->
  lex_step st c = Some (ts, st') ->
  lex_end st' = Some T ->
  lex_end st = Some (ts ++ T).
Proof.
  intros H Hs He. destruct st as [|acc|acc|acc togo v|ph acc|l matched].
  - apply (lex_start_ws _ _ H) in Hs. injection Hs as -> ->. done.
  - each_ws H; vm_compute in Hs; try discriminate;
      injection Hs as <- <-; discriminate.
  - each_ws H; vm_compute in Hs; discriminate.
  - each_ws H; vm_compute in Hs; discriminate.
  - destruct ph; each_ws H; vm_compute in Hs; try discriminate;
      injection Hs as <- <-; vm_compute in He; injection He as <-; reflexivity.
  - destruct l; do 6 (try destruct matched as [|matched]);
      each_ws H; vm_compute in Hs; discriminate.
Qed.

Lemma lex_from_cons st c r T :
  lex_from st (c :: r) = Some T ->
  exists ts st' T', lex_step st c = Some (ts, st') /\
                    lex_from st' r = Some T' /\ T = ts ++ T'.
Proof.
  cbn [lex_from]. destruct (lex_step st c) as [[ts st']|]; [|done].
  destruct (lex_from st' r) as [T'|] eqn:E; [|done].
  intros [= <-]. by exists ts, st', T'.
Qed.

Lemma lex_blank w : blank w -> forall st T,
  lex_from st w = Some T -> lex_end st = Some T.
Proof.
  induction 1 as [|c w Hc _ IH]; intros st T HT; [done|].
  apply lex_from_cons in HT as (ts & st' & T' & Hs & Hr & ->).
  eapply lex_step_ws; eauto.
Qed.

(** Whitespace after the text can be dropped. *)
Lemma lex_blank_suffix s : forall st w T,
  blank w -> lex_from st (s ++ w) = Some T -> lex_from st s = Some T.
Proof.
  induction s as [|c s IH]; intros st w T Hw HT.
  - simpl in *. by eapply lex_blank.
  - rewrite <- app_comm_cons in HT.
    apply lex_from_cons in HT as (ts & st' & T' & Hs & Hr & ->).
    cbn [lex_from]. rewrite Hs. by rewrite (IH _ _ _ Hw Hr).
Qed.

(** Whitespace before the text can be dropped. *)
Lemma lex_blank_prefix w s T :
  blank w -> lex (w ++ s) = Some T -> lex s = Some T.
Proof.
  unfold lex. induction 1 as [|c w Hc _ IH]; [done|].
  rewrite <- app_comm_cons. intros HT.
  apply lex_from_cons in HT as (ts & st' & T' & Hs & Hr & ->).
  cbn [lex_step] in Hs. apply (lex_start_ws _ _ Hc) in Hs. injection Hs as -> ->.
  by apply IH.
Qed.

Lemma parse_lex text v :
  parse text = Some v ->
  exists ts, lex text = Some ts /\ parse_from (PExpect EValue []) ts = Some v.
Proof. unfold parse. destruct (lex text) as [ts|]; [|done]. eauto. Qed.

Lemma parse_trimStart s v : parse s = Some v -> parse (trimStart s) = Some v.
Proof.
  intros H. apply parse_lex in H as (ts & Hl & Hp).
  destruct (trimStart_split s) as (w & Hw & Hs). rewrite Hs in Hl.
  apply lex_blank_prefix in Hl; [|done]. unfold parse. by rewrite Hl.
Qed.

Lemma parse_trimEnd s v : parse s = Some v -> parse (trimEnd s) = Some v.
Proof.
  intros H. apply parse_lex in H as (ts & Hl & Hp).
  destruct (trimEnd_split s) as (w & Hw & Hs). rewrite Hs in Hl.
  apply lex_blank_suffix in Hl; [|done]. unfold parse, lex. by rewrite Hl.
Qed.

(** [JSON.parse] gives the same value for a text and its [trim]. *)
Lemma parse_trim s v : parse s = Some v -> parse (trim s) = Some v.
Proof. intros H. by apply parse_trimEnd, parse_trimStart. Qed.

Lemma parse_empty : parse [] = None.
Proof. reflexivity. Qed.

(** A text that parses is not blank. *)
Lemma parse_not_blank s v : parse s = Some v -> trim s <> [].
Proof. intros H E. apply parse_trim in H. rewrite E in H. discriminate. Qed.

Lemma parse_trimStart_nonempty s v : parse s = Some v -> trimStart s <> [].
Proof. intros H E. apply parse_trimStart in H. rewrite E in H. discriminate. Qed.

Lemma parse_trimEnd_nonempty s v : parse s = Some v -> trimEnd s <> [].
Proof. intros H E. apply parse_trimEnd in H. rewrite E in H. discriminate. Qed.

(** Texts [JSON.parse] takes, and texts it throws on. *)
Example parse_accepts :
  forallb (fun s => accepts (of_string s))
    ["{'a':1,'b':[true,{'c':null}]}"; "[[[]]]"; " { 'a' : [ 1 , 2 ] } ";
     "'e\n\/'"; "0"; "-1.5e+10"; "-0"; "1E5"; "null"; "'x'"]%string = true.
Proof. reflexivity. Qed.

Example parse_rejects :
  forallb (fun s => negb (accepts (of_string s)))
    [""; " "; "{'a':1,}"; "[1,]"; "[,1]"; "{'a'}"; "{'a':}"; "[1,2"; "'\x'";
     "'\u12'"; "+1"; ".5"; "1."; "1.e5"; "01"; "nul"; "[1]]"; "[1}";
     "{'a':1 'b':2}"; "[1 2]"; "1 2"; "{1:2}"; "NaN"; "'a"; "-"]%string = true.
Proof. reflexivity. Qed.

Example parse_status_line :
  parse (of_string "{'model':{'display_name':'Sonnet'}}") =
    Some (JObject [(of_string "model",
                    JObject [(of_string "display_name",
                              JString (of_string "Sonnet"))])]).
Proof. reflexivity. Qed.

End JsonFacts.

(** * Facts about the watcher's methods *)
Module WatcherFacts.
Import Fs JsString Watcher JsStringFacts JsonFacts Utf8Facts.
Local Open Scope nat_scope.
Local Open Scope M_scope.

Lemma put_outputs_nil w : put_outputs [] w = w.
Proof. destruct w. unfold put_outputs, with_trace. simpl. by rewrite app_nil_r. Qed.

Lemma put_outputs_app a b w :
  put_outputs b (put_outputs a w) = put_outputs (a ++ b) w.
Proof. unfold put_outputs, with_trace. simpl. by rewrite app_assoc. Qed.

Lemma take_dates_0 w : take_dates 0 w = w.
Proof. by destruct w. Qed.

(** Two stretches of a call, each with its outputs and its readings of
    the clock, make one. *)
Lemma stretch_compose a ka b kb w :
  put_outputs b (take_dates kb (put_outputs a (take_dates ka w))) =
    put_outputs (a ++ b) (take_dates (ka + kb) w).
Proof.
  unfold put_outputs, take_dates, with_trace, with_dates. simpl.
  f_equal; [lia | by rewrite app_assoc].
Qed.

Lemma updates_app a b : updates (a ++ b) = updates a ++ updates b.
Proof.
  induction a as [|o a IH]; simpl; [done|].
  destruct o; simpl; by rewrite ?IH.
Qed.

(** One turn of the loop of [readNewLines]. *)
Lemma readLine_run agent line w :
  let os := lineOutputs agent (clock w (dates w)) line in
  readLine agent line w =
    (Ret tt, put_outputs os (take_dates (length (updates os)) w)).
Proof.
  intros os. subst os. unfold readLine, lineOutputs.
  destruct (decide (trim line = [])).
  { cbn [updates length]. by rewrite take_dates_0, put_outputs_nil. }
  unfold try_catch, bind, JSON_parse.
  destruct (Json.parse line); [reflexivity|].
  cbn [updates length]. by rewrite take_dates_0.
Qed.

Lemma forEach_readLine agent lines : forall w,
  let os := linesOutputs agent (clock w) (dates w) lines in
  forEach lines (readLine agent) w =
    (Ret tt, put_outputs os (take_dates (length (updates os)) w)).
Proof.
  induction lines as [|line lines IH]; intros w; cbn [forEach linesOutputs].
  - cbn [updates length]. by rewrite take_dates_0, put_outputs_nil.
  - cbv zeta. unfold bind. rewrite readLine_run. cbv zeta. rewrite IH. cbv zeta.
    rewrite stretch_compose, updates_app, length_app. reflexivity.
Qed.

(** [readNewLines] when the file can be read. *)
Lemma readNewLines_read agent p w bytes :
  readFileSync (files w) p = inr bytes ->
  let os :=
    chunkOutputs agent (clock w) (dates w)
      (slice (Utf8.decode bytes) (default 0%nat (fileOffsets (this w) !! p))) in
  readNewLines agent p w =
    (Ret tt,
     put_outputs os
       (take_dates (length (updates os))
          (put_offset p (length (Utf8.decode bytes)) w))).
Proof.
  intros Hr os. subst os.
  unfold readNewLines, try_catch, bind, fs_readFileSync_utf8, bind,
    fs_readFileSync, gets, fileOffsets_set, modify, ret.
  rewrite Hr. simpl. unfold chunkOutputs.
  destruct (decide (trim _ = [])).
  { cbn [updates length]. by rewrite take_dates_0, put_outputs_nil. }
  by rewrite forEach_readLine.
Qed.

(** [readNewLines] when the read throws. *)
Lemma readNewLines_unreadable agent p w e :
  readFileSync (files w) p = inl e ->
  readNewLines agent p w = (Ret tt, put_outputs [LogDebug (MsgReadFailed e)] w).
Proof.
  intros Hr. unfold readNewLines, try_catch, bind, fs_readFileSync_utf8, bind,
    fs_readFileSync. rewrite Hr. reflexivity.
Qed.

(** [readNewLines] returns in every world. *)
Lemma readNewLines_returns agent p w : fst (readNewLines agent p w) = Ret tt.
Proof.
  destruct (readFileSync (files w) p) as [e|bytes] eqn:Hr.
  - by rewrite (readNewLines_unreadable _ _ _ _ Hr).
  - by rewrite (readNewLines_read _ _ _ _ Hr).
Qed.

Lemma chunkOutputs_nil agent clock n : chunkOutputs agent clock n [] = [].
Proof. reflexivity. Qed.

Lemma chunkOutputs_blank agent clock n chunk :
  blank chunk -> chunkOutputs agent clock n chunk = [].
Proof.
  intros H. unfold chunkOutputs. rewrite (trim_blank _ H). reflexivity.
Qed.

Lemma lineOutputs_parsed agent time line v :
  Json.parse line = Some v ->
  lineOutputs agent time line =
    [Update {| agentName := agent; data := v; timestamp := time |}].
Proof.
  intros H. unfold lineOutputs.
  destruct (decide (trim line = [])) as [E|_].
  - by apply parse_not_blank in H.
  - by rewrite H.
Qed.

Lemma lineOutputs_malformed agent time line :
  Json.parse line = None ->
  lineOutputs agent time line =
    if decide (trim line = []) then [] else [LogDebug (MsgParseFailed line)].
Proof. intros H. unfold lineOutputs. by rewrite H. Qed.

Lemma updates_lineOutputs_malformed agent time line :
  Json.parse line = None -> updates (lineOutputs agent time line) = [].
Proof.
  intros H. rewrite lineOutputs_malformed by done. by destruct (decide _).
Qed.

(** Lines that do not parse give no update event. *)
Lemma updates_linesOutputs_malformed agent clock lines : forall n,
  Forall (fun line => Json.parse line = None) lines ->
  updates (linesOutputs agent clock n lines) = [].
Proof.
  induction lines as [|line lines IH]; intros n H; [done|].
  apply Forall_cons in H as [Hl H]. cbn [linesOutputs]. cbv zeta.
  rewrite updates_app, updates_lineOutputs_malformed by done.
  by apply IH.
Qed.

(** The lines of a chunk made of a well-formed line, one more line and
    a second well-formed line. *)
Lemma trim_three_lines l1 mid l3 tail v1 v3 :
  Json.parse l1 = Some v1 -> Json.parse l3 = Some v3 -> blank tail ->
  trim (l1 ++ LF :: mid ++ LF :: l3 ++ tail) =
    trimStart l1 ++ LF :: mid ++ LF :: trimEnd l3.
Proof.
  intros H1 H3 Ht. unfold trim.
  rewrite trimStart_app by by eapply parse_trimStart_nonempty.
  replace (trimStart l1 ++ LF :: mid ++ LF :: l3 ++ tail)
    with (((trimStart l1 ++ LF :: mid ++ [LF]) ++ l3) ++ tail)
    by (rewrite <- !app_assoc; simpl; by rewrite <- !app_assoc).
  rewrite trimEnd_blank by done.
  rewrite trimEnd_app by by eapply parse_trimEnd_nonempty.
  rewrite <- !app_assoc. simpl. by rewrite <- !app_assoc.
Qed.

Lemma chunkOutputs_three_lines agent clock n l1 mid l3 tail v1 v3 :
  single_line l1 -> single_line mid -> single_line l3 -> blank tail ->
  Json.parse l1 = Some v1 -> Json.parse mid = None -> Json.parse l3 = Some v3 ->
  chunkOutputs agent clock n (l1 ++ LF :: mid ++ LF :: l3 ++ tail) =
    Update {| agentName := agent; data := v1; timestamp := clock n |}
    :: (if decide (trim mid = []) then [] else [LogDebug (MsgParseFailed mid)])
    ++ [Update {| agentName := agent; data := v3; timestamp := clock (S n) |}].
Proof.
  intros S1 S2 S3 Ht H1 H2 H3. unfold chunkOutputs.
  rewrite (trim_three_lines _ _ _ _ _ _ H1 H3 Ht).
  destruct (decide (_ = [])) as [E|_].
  { apply app_eq_nil in E as [E _]. by apply parse_trimStart_nonempty in H1. }
  rewrite split_lf_app by by apply single_line_trimStart.
  rewrite split_lf_app by done.
  rewrite split_lf_line by by apply single_line_trimEnd.
  cbn [linesOutputs]. cbv zeta.
  rewrite (lineOutputs_parsed _ _ _ _ (parse_trimStart _ _ H1)).
  cbn [updates length Nat.add].
  rewrite (updates_lineOutputs_malformed _ _ _ H2). cbn [length Nat.add].
  rewrite (lineOutputs_malformed _ _ _ H2).
  rewrite (lineOutputs_parsed _ _ _ _ (parse_trimEnd _ _ H3)).
  reflexivity.
Qed.



Lemma with_files_same w : with_files (fun _ => files w) w = w.
Proof. by destruct w. Qed.

Lemma readFileSync_exists t p bytes : readFileSync t p = inr bytes -> existsSync t p = true.
Proof.
  unfold readFileSync, existsSync. destruct (lookup_node t p) as [[c []| |e]|]; done.
Qed.

Lemma drop_offset_absent p w :
  fileOffsets (this w) !! p = None -> drop_offset p w = w.
Proof.
  destruct w as [f wa h c d [tn ws fo st] tr]. cbn. intros H.
  unfold drop_offset, with_this, set_fileOffsets. cbn. by rewrite delete_id.
Qed.

Lemma lookup_node_nonempty t p : p <> [] -> lookup_node t p = t !! p.
Proof. by destruct p. Qed.

(** The create-if-missing step of [watchAgent] leaves the file in
    place. *)
Lemma create_if_missing t p :
  creatable t p ->
  exists t', (if existsSync t p then inr t else writeFileSync t p []) = inr t' /\
             existsSync t' p = true /\
             (existsSync t p = true -> t' = t).
Proof.
  intros Hc. destruct (existsSync t p) eqn:Hex; [by exists t|].
  destruct Hc as [Hc|Hd]; [congruence|].
  unfold existsSync in Hex. unfold writeFileSync.
  destruct (lookup_node t p) eqn:Hl; [done|]. rewrite Hd.
  exists (<[p := File [] true]> t). split; [done|]. split; [|done].
  unfold existsSync. destruct p as [|s p]; [done|].
  cbn [lookup_node]. by rewrite lookup_insert_eq.
Qed.

Lemma elem_of_ancestors q p :
  q ∈ ancestors p <-> exists k, (1 <= k <= length p)%nat /\ q = take k p.
Proof.
  unfold ancestors. rewrite list_elem_of_fmap. split.
  - intros (k & -> & Hk). apply list_elem_of_In, in_seq in Hk. exists k. split; [lia|done].
  - intros (k & Hk & ->). exists k. split; [done|].
    apply list_elem_of_In, in_seq. lia.
Qed.

Lemma lookup_longer (t : tree) (q : path) (n : node) (k : nat) (rest : list string) :
  (1 <= k <= length rest)%nat ->
  <[q := n]> t !! (q ++ take k rest) = t !! (q ++ take k rest).
Proof.
  intros Hk. apply lookup_insert_ne. intros E. apply (f_equal length) in E.
  rewrite length_app, length_take in E. lia.
Qed.

Lemma step_down (at_ : path) (seg : string) (rest : list string) (k : nat) :
  at_ ++ take (S k) (seg :: rest) = (at_ ++ [seg]) ++ take k rest.
Proof. by rewrite <- app_assoc. Qed.

(** What a successful [mkdir -p] leaves: whatever was on the way is
    as before and is no regular file, every missing directory on the
    way is now a directory that takes entries, and nothing else
    changed. *)
Lemma mkdir_from_creates rest : forall t at_ t',
  mkdir_from t at_ rest = inr t' ->
  (forall k, (1 <= k <= length rest)%nat ->
     match t !! (at_ ++ take k rest) with
     | Some (File _ _) => False
     | Some n => t' !! (at_ ++ take k rest) = Some n
     | None => t' !! (at_ ++ take k rest) = Some Dir
     end) /\
  (forall q, (forall k, (1 <= k <= length rest)%nat -> q <> at_ ++ take k rest) ->
             t' !! q = t !! q).
Proof.
  induction rest as [|seg rest IH]; intros t at_ t' Hm.
  { injection Hm as <-. split; [simpl; lia|done]. }
  cbn [mkdir_from] in Hm.
  assert (at_ ++ [seg] <> []) as Hne by by destruct at_.
  rewrite (lookup_node_nonempty _ _ Hne) in Hm.
  assert (forall k, (1 <= k <= length rest)%nat ->
            at_ ++ [seg] <> (at_ ++ [seg]) ++ take k rest) as Hlong.
  { intros k Hk E. apply (f_equal length) in E.
    rewrite !length_app, length_take in E. simpl in E. lia. }
  assert (forall t1 : tree, mkdir_from t1 (at_ ++ [seg]) rest = inr t' ->
            t' !! (at_ ++ [seg]) = t1 !! (at_ ++ [seg])) as Hhere.
  { intros t1 H1. apply IH in H1 as [_ Hframe]. apply Hframe.
    intros k Hk. by apply Hlong. }
  destruct (t !! (at_ ++ [seg])) as [[c r| |e]|] eqn:Hl; [done| | |].
  - pose proof (Hhere _ Hm) as Hq. apply IH in Hm as [Hdirs Hframe]. split.
    + intros [|[|k]] Hk; [lia| |].
      * rewrite step_down, take_0, app_nil_r, Hl. by rewrite Hq.
      * rewrite step_down. apply Hdirs. simpl in Hk. lia.
    + intros q Hq'. apply Hframe. intros k Hk. rewrite <- step_down. apply Hq'.
      simpl. lia.
  - pose proof (Hhere _ Hm) as Hq. apply IH in Hm as [Hdirs Hframe]. split.
    + intros [|[|k]] Hk; [lia| |].
      * rewrite step_down, take_0, app_nil_r, Hl. by rewrite Hq.
      * rewrite step_down. apply Hdirs. simpl in Hk. lia.
    + intros q Hq'. apply Hframe. intros k Hk. rewrite <- step_down. apply Hq'.
      simpl. lia.
  - assert (mkdir_from (<[at_ ++ [seg] := Dir]> t) (at_ ++ [seg]) rest = inr t')
      as Hm' by by destruct (lookup_node t at_) as [[c r| |e]|].
    pose proof (Hhere _ Hm') as Hq. rewrite lookup_insert_eq in Hq.
    apply IH in Hm' as [Hdirs Hframe]. split.
    + intros [|[|k]] Hk; [lia| |].
      * by rewrite step_down, take_0, app_nil_r, Hl.
      * rewrite step_down. simpl in Hk.
        specialize (Hdirs (S k) ltac:(lia)).
        by rewrite lookup_longer in Hdirs by lia.
    + intros q Hq'. rewrite Hframe.
      * apply lookup_insert_ne. intros E. apply (Hq' 1%nat); [simpl; lia|].
        by rewrite step_down, take_0, app_nil_r.
      * intros k Hk. rewrite <- step_down. apply Hq'. simpl. lia.
Qed.


(** When [mkdir -p] throws, a regular file is on the way (the error
    tells whether it is at the last segment), or something is missing
    below a directory that refuses entries, whose error it is. *)
Lemma mkdir_from_error rest : forall t at_ e,
  mkdir_from t at_ rest = inl e ->
  (exists k c r, (1 <= k <= length rest)%nat /\
     t !! (at_ ++ take k rest) = Some (File c r) /\
     e = if decide (k = length rest) then EEXIST else ENOTDIR) \/
  (exists k, (k < length rest)%nat /\
     lookup_node t (at_ ++ take k rest) = Some (Sealed e) /\
     t !! (at_ ++ take (S k) rest) = None).
Proof.
  induction rest as [|seg rest IH]; intros t at_ e Hm; [done|].
  cbn [mkdir_from] in Hm.
  assert (at_ ++ [seg] <> []) as Hne by by destruct at_.
  assert (forall k x, (at_ ++ [seg]) ++ take k x <> []) as Hne' by by destruct at_.
  rewrite (lookup_node_nonempty _ _ Hne) in Hm.
  assert (forall t1 : tree, t1 !! (at_ ++ [seg]) <> None ->
            (forall k, (1 <= k <= length rest)%nat ->
               t1 !! ((at_ ++ [seg]) ++ take k rest) = t !! ((at_ ++ [seg]) ++ take k rest)) ->
            (forall e', t1 !! (at_ ++ [seg]) = Some (Sealed e') ->
                        t !! (at_ ++ [seg]) = Some (Sealed e')) ->
            mkdir_from t1 (at_ ++ [seg]) rest = inl e ->
            (exists k c r, (1 <= k <= length (seg :: rest))%nat /\
               t !! (at_ ++ take k (seg :: rest)) = Some (File c r) /\
               e = if decide (k = length (seg :: rest)) then EEXIST else ENOTDIR) \/
            (exists k, (k < length (seg :: rest))%nat /\
               lookup_node t (at_ ++ take k (seg :: rest)) = Some (Sealed e) /\
               t !! (at_ ++ take (S k) (seg :: rest)) = None)) as Hbelow.
  { intros t1 Hhere Hsame Hseal H1.
    apply IH in H1 as [(k & c & r & Hk & Hf & ->)|(k & Hk & Hs & Hn)].
    - left. exists (S k), c, r. split; [simpl; lia|]. split.
      + by rewrite step_down, <- Hsame.
      + cbn [length]. repeat case_decide; (done || lia).
    - right. exists (S k). split; [simpl; lia|]. split.
      + rewrite step_down, (lookup_node_nonempty _ _ (Hne' _ _)).
        rewrite (lookup_node_nonempty _ _ (Hne' _ _)) in Hs.
        destruct k as [|k].
        * rewrite take_0, app_nil_r in *. by apply Hseal.
        * by rewrite <- Hsame by lia.
      + rewrite step_down, <- Hsame by lia. done. }
  destruct (t !! (at_ ++ [seg])) as [[c r| |e']|] eqn:Hl.
  - left. exists 1%nat, c, r. split; [simpl; lia|]. split.
    + by rewrite step_down, take_0, app_nil_r.
    + injection Hm as <-. destruct rest as [|x rest]; [done|].
      by rewrite decide_False by (simpl; lia).
  - apply (Hbelow t); [by rewrite Hl|done|intros e0 He; by rewrite Hl in He|exact Hm].
  - apply (Hbelow t); [by rewrite Hl|done|intros e0 He; by rewrite Hl in He|exact Hm].
  - destruct (lookup_node t at_) as [[c r| |e']|] eqn:Hp.
    4:{ apply (Hbelow (<[at_ ++ [seg] := Dir]> t)); [by rewrite lookup_insert_eq| | |done].
        - intros k Hk. by apply lookup_longer.
        - intros e'. by rewrite lookup_insert_eq. }
    3:{ injection Hm as <-. right. exists 0%nat. split; [simpl; lia|].
        rewrite take_0, app_nil_r. split; [done|].
        by rewrite step_down, take_0, app_nil_r. }
    all: apply (Hbelow (<[at_ ++ [seg] := Dir]> t)); [by rewrite lookup_insert_eq| | |done];
      [intros k Hk; by apply lookup_longer|intros e'; by rewrite lookup_insert_eq].
Qed.

(** A regular file on the way makes [mkdir -p] throw. *)
Lemma mkdir_from_blocked rest : forall t at_ k c r,
  (1 <= k <= length rest)%nat ->
  t !! (at_ ++ take k rest) = Some (File c r) ->
  exists e, mkdir_from t at_ rest = inl e.
Proof.
  induction rest as [|seg rest IH]; intros t at_ k c r Hk Hf; [simpl in Hk; lia|].
  cbn [mkdir_from].
  assert (at_ ++ [seg] <> []) as Hne by by destruct at_.
  rewrite (lookup_node_nonempty _ _ Hne).
  destruct k as [|[|k]]; [lia| |].
  - rewrite step_down, take_0, app_nil_r in Hf. rewrite Hf. by eexists.
  - rewrite step_down in Hf. cbn [length] in Hk.
    destruct (t !! (at_ ++ [seg])) as [[c' r'| |e']|] eqn:Hl.
    + by eexists.
    + apply (IH _ _ (S k) c r); [lia|done].
    + apply (IH _ _ (S k) c r); [lia|done].
    + destruct (lookup_node t at_) as [[c' r'| |e']|]; try (by eexists);
        (apply (IH _ _ (S k) c r); [lia|]; by rewrite lookup_longer by lia).
Qed.

(** The loop of [stop]. *)
Lemma forEach_close (entries : list (string * nat)) : forall w,
  forEach entries (fun entry => close (snd entry)) w =
    (Ret tt,
     with_heap (fun h => foldl (fun h entry => alter close_watcher (snd entry) h)
                               h entries) w).
Proof.
  induction entries as [|entry entries IH]; intros w; cbn [forEach foldl].
  - by destruct w.
  - unfold bind, close, modify. rewrite IH. reflexivity.
Qed.

Lemma stop_run w :
  stop w =
    (Ret tt,
     with_this (fun i => {| teamName := teamName i; watchers := ∅;
                            fileOffsets := ∅; stopped := true |})
       (with_heap (fun h => foldl (fun h entry => alter close_watcher (snd entry) h)
                                  h (map_to_list (watchers (this w)))) w)).
Proof.
  unfold stop, bind, modify, gets. cbv beta. rewrite forEach_close. reflexivity.
Qed.

Lemma length_close_all (entries : list (string * nat)) : forall h : list FSWatcher,
  length (foldl (fun h entry => alter close_watcher (snd entry) h) h entries)
    = length h.
Proof.
  induction entries as [|entry entries IH]; intros h; cbn [foldl]; [done|].
  by rewrite IH, length_alter.
Qed.

(** After the loop of [stop], a watcher that was in the loop, or was
    closed already, is closed. *)
Lemma closed_stays_closed (entries : list (string * nat)) :
  forall (h : list FSWatcher) i fw,
  foldl (fun h entry => alter close_watcher (snd entry) h) h entries !! i = Some fw ->
  (i ∈ map snd entries \/ exists fw0, h !! i = Some fw0 /\ w_open fw0 = false) ->
  w_open fw = false.
Proof.
  induction entries as [|[a x] entries IH]; intros h i fw Hl Hc;
    cbn [foldl map snd] in *.
  - destruct Hc as [Hc|(fw0 & H0 & Hc)]; [by apply elem_of_nil in Hc|]. congruence.
  - apply (IH _ _ _ Hl).
    destruct (decide (i = x)) as [->|Hne].
    + right. rewrite list_lookup_alter_eq.
      destruct (h !! x) as [fw0|] eqn:E; [by exists (close_watcher fw0)|].
      apply lookup_lt_Some in Hl. apply lookup_ge_None in E.
      rewrite length_close_all, length_alter in Hl. lia.
    + destruct Hc as [Hc|(fw0 & H0 & Hc)].
      * apply elem_of_cons in Hc as [Hc|Hc]; [done|by left].
      * right. exists fw0. by rewrite list_lookup_alter_ne.
Qed.

(** [stop] sets the flag, empties both maps and closes every watcher
    the instance holds. *)
Lemma stop_closes_held w :
  let w' := snd (stop w) in
  fst (stop w) = Ret tt /\
  stopped (this w') = true /\
  watchers (this w') = ∅ /\
  fileOffsets (this w') = ∅ /\
  (all_held w -> forall h fw, heap w' !! h = Some fw -> w_open fw = false).
Proof.
  intros w'. subst w'. rewrite stop_run. cbn [fst snd].
  repeat split. intros Hheld h fw Hl.
  cbn [heap with_this with_heap] in Hl.
  destruct (heap w !! h) as [fw0|] eqn:E.
  - apply (closed_stays_closed _ _ _ _ Hl).
    destruct (w_open fw0) eqn:Ho; [left|right; by exists fw0].
    destruct (Hheld h fw0 E Ho) as [agent Ha].
    apply list_elem_of_fmap. exists (agent, h). split; [done|].
    by apply elem_of_map_to_list.
  - apply lookup_lt_Some in Hl. apply lookup_ge_None in E.
    rewrite length_close_all in Hl. lia.
Qed.

(** A closed watcher, or none, hears nothing. *)
Lemma notify_closed h ev w :
  (forall fw, heap w !! h = Some fw -> w_open fw = false) ->
  notify h ev w = (Ret tt, w).
Proof.
  intros Hc. unfold notify, bind, gets.
  destruct (heap w !! h) as [fw|] eqn:E; [|done].
  by rewrite (Hc fw eq_refl).
Qed.

Lemma notify_open h ev w fw :
  heap w !! h = Some fw -> w_open fw = true ->
  notify h ev w = listener (w_agent fw) (w_path fw) ev w.
Proof. intros E Ho. unfold notify, bind, gets. by rewrite E, Ho. Qed.

(** No method clears the flag. *)
Lemma stopped_readNewLines agent p w :
  stopped (this (snd (readNewLines agent p w))) = stopped (this w).
Proof.
  destruct (readFileSync (files w) p) as [e|bytes] eqn:Hr.
  - by rewrite (readNewLines_unreadable _ _ _ _ Hr).
  - by rewrite (readNewLines_read _ _ _ _ Hr).
Qed.

Lemma stopped_notify h ev w :
  stopped (this (snd (notify h ev w))) = stopped (this w).
Proof.
  unfold notify, bind, gets. destruct (heap w !! h) as [fw|]; [|done].
  destruct (w_open fw); [|done]. destruct ev; [|done].
  apply stopped_readNewLines.
Qed.

(** What does hold of the offset a read stores: it is the length of
    the decoded text, never more than the file's length in bytes,
    equal to it for an ASCII file, and it does not shrink from one
    read to the next while the file only grows. *)
Lemma offset_after_read agent p w bytes :
  readFileSync (files w) p = inr bytes ->
  let n := length (Utf8.decode bytes) in
  fileOffsets (this (snd (readNewLines agent p w))) !! p = Some n /\
  (n <= length bytes)%nat /\
  (Utf8.ascii_only bytes -> n = length bytes) /\
  (forall extra, n <= length (Utf8.decode (bytes ++ extra)))%nat.
Proof.
  intros Hr n. split; [|split; [|split]].
  - rewrite (readNewLines_read _ _ _ _ Hr). cbn. apply lookup_insert_eq.
  - apply decode_length.
  - intros Ha. subst n. by rewrite (decode_ascii _ Ha), length_map.
  - intros extra. apply decode_length_app.
Qed.

(** The producer's append, as the next read sees it. *)
Lemma appendFile_read p extra w content :
  p <> [] ->
  readFileSync (files w) p = inr content ->
  readFileSync (files (appendFile p extra w)) p = inr (content ++ extra) /\
  this (appendFile p extra w) = this w /\
  heap (appendFile p extra w) = heap w.
Proof.
  intros Hp Hr. repeat split.
  unfold readFileSync in *. rewrite lookup_node_nonempty in * by done.
  cbn [files appendFile with_files].
  destruct (files w !! p) as [[c []| |e]|]; try done.
  injection Hr as ->. by rewrite lookup_insert_eq.
Qed.

Lemma this_with_files f w : this (with_files f w) = this w.
Proof. reflexivity. Qed.

Lemma this_appendFile p extra w : this (appendFile p extra w) = this w.
Proof. reflexivity. Qed.

Lemma this_grant_watches w : this (Example.grant_watches w) = this w.
Proof. reflexivity. Qed.

Lemma watchable_grant_watches w p : watchable (Example.grant_watches w) p = true.
Proof. reflexivity. Qed.

Section Methods.
Variable teamDir : string -> path.

Lemma watchAgent_stopped agent w :
  stopped (this w) = true -> watchAgent teamDir agent w = (Ret tt, w).
Proof. intros H. unfold watchAgent, bind, gets. by rewrite H. Qed.

(** [watchAgent] on a running instance, step by step: the file is
    created if missing, its length (or zero) is stored, and the
    watch is attached or the failure logged. *)
Lemma watchAgent_running agent w :
  stopped (this w) = false ->
  let p := statusLineLogPath teamDir (teamName (this w)) agent in
  watchAgent teamDir agent w =
    match (if existsSync (files w) p then inr (files w)
           else writeFileSync (files w) p []) with
    | inl e => (Throw e, w)
    | inr t =>
        let n := match readFileSync t p with inr b => length b | inl _ => 0%nat end in
        let w2 := put_offset p n (with_files (fun _ => t) w) in
        (Ret tt,
         if negb (existsSync t p) then
           put_outputs [LogError (MsgWatchFailed agent ENOENT)] w2
         else if negb (watchable w p) then
           put_outputs [LogError (MsgWatchFailed agent ENOSPC)] w2
         else
           put_outputs [LogDebug (MsgWatching agent p)]
             (put_watcher agent (length (heap w)) (open_watcher agent p w2)))
    end.
Proof.
  intros Hs p. subst p.
  set (p := statusLineLogPath teamDir (teamName (this w)) agent).
  unfold watchAgent. fold p.
  unfold fs_existsSync, fs_writeFileSync, fs_readFileSync, fs_watch,
    fileOffsets_set, watchers_set, log_debug, log_error.
  unfold bind, gets, try_catch, modify, ret. cbv beta zeta.
  rewrite Hs. fold p.
  destruct (existsSync (files w) p) eqn:Hex; cbn [negb].
  - rewrite with_files_same.
    destruct (readFileSync (files w) p) as [e|b]; cbn [lift throw ret];
      unfold ret, throw; cbn [files put_offset with_this watchable];
      rewrite Hex; cbn [negb]; destruct (watchable w p); reflexivity.
  - destruct (writeFileSync (files w) p []) as [e|t]; [reflexivity|].
    cbn [files with_files].
    destruct (readFileSync t p) as [e|b]; cbn [lift throw ret];
      unfold ret, throw; cbn [files put_offset with_this with_files watchable];
      destruct (existsSync t p); cbn [negb]; try reflexivity;
      destruct (watchable w p); reflexivity.
Qed.

(** [watchAgent] when the log file is there. *)
Lemma watchAgent_present agent w :
  stopped (this w) = false ->
  let p := statusLineLogPath teamDir (teamName (this w)) agent in
  existsSync (files w) p = true ->
  let n := match readFileSync (files w) p with inr b => length b | inl _ => 0%nat end in
  watchAgent teamDir agent w =
    (Ret tt,
     if watchable w p then
       put_outputs [LogDebug (MsgWatching agent p)]
         (put_watcher agent (length (heap w))
            (open_watcher agent p (put_offset p n w)))
     else put_outputs [LogError (MsgWatchFailed agent ENOSPC)] (put_offset p n w)).
Proof.
  intros Hs p Hex n. subst p n. rewrite (watchAgent_running agent w Hs).
  cbv zeta. rewrite Hex. rewrite with_files_same, Hex.
  by destruct (watchable w _).
Qed.

Lemma watchAgent_present_offset agent w :
  stopped (this w) = false ->
  let p := statusLineLogPath teamDir (teamName (this w)) agent in
  existsSync (files w) p = true ->
  fileOffsets (this (snd (watchAgent teamDir agent w))) !! p =
    Some (match readFileSync (files w) p with inr b => length b | inl _ => 0%nat end).
Proof.
  intros Hs p Hex. subst p. rewrite (watchAgent_present agent w Hs Hex).
  cbn [snd]. destruct (watchable w _);
    cbn [this put_outputs with_trace put_offset with_this put_watcher open_watcher
           with_heap fileOffsets set_fileOffsets set_watchers];
    apply lookup_insert_eq.
Qed.

Lemma unwatchAgent_run agent w :
  let p := statusLineLogPath teamDir (teamName (this w)) agent in
  unwatchAgent teamDir agent w =
    (Ret tt,
     drop_offset p
       match watchers (this w) !! agent with
       | Some h => drop_watcher agent (shut_watcher h w)
       | None => w
       end).
Proof.
  intros p. subst p. unfold unwatchAgent, bind, gets, close, watchers_delete,
    fileOffsets_delete, modify, ret.
  by destruct (watchers (this w) !! agent).
Qed.

Lemma ensureDir_run w :
  let dir := statusLineDir teamDir (teamName (this w)) in
  ensureDir teamDir w =
    if existsSync (files w) dir then (Ret tt, w)
    else match mkdirSync_recursive (files w) dir with
         | inr t => (Ret tt, with_files (fun _ => t) w)
         | inl e => (Throw e, w)
         end.
Proof.
  intros dir. subst dir. unfold ensureDir, bind, gets, fs_existsSync,
    fs_mkdirSync_recursive, gets, ret. cbv beta zeta.
  by destruct (existsSync _ _).
Qed.

Lemma stopped_unwatchAgent agent w :
  stopped (this (snd (unwatchAgent teamDir agent w))) = stopped (this w).
Proof. rewrite unwatchAgent_run. cbn [snd]. by destruct (watchers (this w) !! agent). Qed.

Lemma stopped_ensureDir w :
  stopped (this (snd (ensureDir teamDir w))) = stopped (this w).
Proof.
  rewrite ensureDir_run. destruct (existsSync _ _); [done|].
  by destruct (mkdirSync_recursive _ _).
Qed.

Lemma stopped_watchAgent agent w :
  stopped (this w) = true ->
  stopped (this (snd (watchAgent teamDir agent w))) = true.
Proof. intros H. by rewrite (watchAgent_stopped agent w H). Qed.

(** What does hold after [stop], provided no watcher had been
    dropped from the map while still open: the flag is set, both
    maps are empty, registration does nothing and no notification
    has any effect, whatever happens to the files. *)
Lemma stop_is_final w :
  all_held w ->
  let w' := snd (stop w) in
  forall w'', this w'' = this w' -> heap w'' = heap w' ->
    (forall agent, watchAgent teamDir agent w'' = (Ret tt, w'')) /\
    (forall h ev, notify h ev w'' = (Ret tt, w'')).
Proof.
  intros Hheld w' w'' Hthis Hheap.
  destruct (stop_closes_held w) as (_ & Hs & _ & _ & Hc). fold w' in Hs, Hc.
  split.
  - intros agent. apply watchAgent_stopped. by rewrite Hthis.
  - intros h ev. apply notify_closed. intros fw Hl. rewrite Hheap in Hl.
    by apply (Hc Hheld h fw).
Qed.

(** Registering a name that has no watcher keeps every open watcher
    in the map. *)
Lemma all_held_watchAgent agent w :
  all_held w -> watchers (this w) !! agent = None ->
  all_held (snd (watchAgent teamDir agent w)).
Proof.
  intros Hheld Hnew. destruct (stopped (this w)) eqn:Hs.
  { by rewrite (watchAgent_stopped agent w Hs). }
  rewrite (watchAgent_running agent w Hs). cbv zeta.
  set (p := statusLineLogPath teamDir (teamName (this w)) agent).
  destruct (if existsSync (files w) p then _ else _) as [e|t]; [done|].
  cbn [snd].
  destruct (negb (existsSync t p)); [exact Hheld|].
  destruct (negb (watchable w p)); [exact Hheld|].
  intros h fw Hl Ho.
  cbn [heap this put_outputs with_trace put_watcher with_this open_watcher with_heap
         put_offset with_files watchers set_watchers set_fileOffsets] in *.
  destruct (decide (h < length (heap w))%nat) as [Hlt|Hge].
  - rewrite lookup_app_l in Hl by done.
    destruct (Hheld h fw Hl Ho) as [a Ha]. exists a.
    rewrite lookup_insert_ne; [done|]. intros <-. congruence.
  - assert (h = length (heap w)) as ->.
    { apply lookup_lt_Some in Hl. rewrite length_app in Hl. simpl in Hl. lia. }
    exists agent. apply lookup_insert_eq.
Qed.

Lemma all_held_unwatchAgent agent w :
  all_held w -> all_held (snd (unwatchAgent teamDir agent w)).
Proof.
  intros Hheld. rewrite unwatchAgent_run. cbn [snd].
  destruct (watchers (this w) !! agent) as [x|] eqn:E; [|exact Hheld].
  intros h fw Hl Ho.
  cbn [heap this drop_offset drop_watcher shut_watcher with_this with_heap
         watchers set_watchers set_fileOffsets] in *.
  destruct (decide (h = x)) as [->|Hne].
  - rewrite list_lookup_alter_eq in Hl.
    destruct (heap w !! x); [|done]. injection Hl as <-. done.
  - rewrite list_lookup_alter_ne in Hl by done.
    destruct (Hheld h fw Hl Ho) as [a Ha]. exists a.
    rewrite lookup_delete_ne; [done|]. intros <-. congruence.
Qed.

End Methods.

End WatcherFacts.

(** * The properties of the specification, C1 to C10 *)
Module Claims.
Import Fs JsString Watcher Example.
Import JsStringFacts JsonFacts Utf8Facts WatcherFacts.
Local Open Scope nat_scope.
Local Open Scope M_scope.
Local Open Scope string_scope.
Local Open Scope list_scope.

Ltac not_in_list :=
  let H := fresh in
  intros H; repeat (apply elem_of_cons in H as [H|H]; [discriminate H|]);
  by apply elem_of_nil in H.

(** The example of the specification: the log is absent, so
    registration creates it empty and stores offset 0; the writer
    appends one status line; the notification yields one update event
    and the offset becomes the length of the line. *)
Example fresh_log_then_one_line :
  let w1 := after (watchAgent homeTeamDir "agent1") fresh in
  let w2 := after (notify 0 Change)
              (appendFile log (line "{'model':{'display_name':'Sonnet'}}") w1) in
  readFileSync (files w1) log = inr [] /\
  fileOffsets (this w1) !! log = Some 0 /\
  updates (trace w2) =
    [{| agentName := "agent1";
        data := Json.JObject
                  [(of_string "model",
                    Json.JObject [(of_string "display_name",
                                   Json.JString (of_string "Sonnet"))])];
        timestamp := 1000 |}] /\
  fileOffsets (this w2) !! log = Some 36.
Proof. vm_compute. repeat split. Qed.

Section Registration.
Variable teamDir : string -> path.


End Registration.


(** C2, at a file that is not ASCII. The log holds seven bytes (three
    two-byte characters and a line feed) when [agent1] is registered,
    so offset 7 is stored. The producer appends the line [1]; the file
    is then nine bytes, which decode to six code units. The change
    notification makes [readNewLines] slice the six units from offset
    7: nothing is new, no event is emitted for the appended line, and
    the offset stored is 6, below the 7 of before and not the file's
    length. *)
Theorem offset_falls_behind_on_multibyte_content :
  let w1 := after (watchAgent homeTeamDir "agent1") (holding accented true) in
  let w2 := appendFile log (line "1") w1 in
  let w3 := after (notify 0 Change) w2 in
  fileOffsets (this w1) !! log = Some 7%nat /\
  readFileSync (files w2) log = inr (accented ++ line "1") /\
  length (accented ++ line "1") = 9%nat /\
  fst (notify 0 Change w2) = Ret tt /\
  fileOffsets (this w3) !! log = Some 6%nat /\
  updates (trace w3) = [].
Proof. vm_compute. repeat split. Qed.

(** C3, after a registration against content that is not ASCII.  The
    log holds five bytes (two two-byte characters and a line feed)
    when [agent1] is registered, so offset 5 is stored.  The producer
    appends three lines, the second malformed: the file is then 18
    bytes, which decode to 16 code units.  [readNewLines] slices the
    text from 5, two units into the first appended line: what is left
    of that line does not parse, so one update event is emitted, not
    two, and the offset stored is 16, short of the end of the chunk. *)
Theorem batch_loses_a_line_after_multibyte_content :
  let chunk := line "[1]" ++ line "oops" ++ line "[2]" in
  let w1 := after (watchAgent homeTeamDir "agent1") (holding accents true) in
  let w2 := appendFile log chunk w1 in
  let w3 := after (notify 0 Change) w2 in
  Json.parse (of_string "[1]") = Some (Json.JArray [Json.JNumber (of_string "1")]) /\
  Json.parse (of_string "oops") = None /\
  Json.parse (of_string "[2]") = Some (Json.JArray [Json.JNumber (of_string "2")]) /\
  fileOffsets (this w1) !! log = Some 5%nat /\
  readFileSync (files w2) log = inr (accents ++ chunk) /\
  length (accents ++ chunk) = 18%nat /\
  fst (notify 0 Change w2) = Ret tt /\
  slice (Utf8.decode (accents ++ chunk)) 5 =
    of_string "]" ++ LF :: Utf8.decode (line "oops" ++ line "[2]") /\
  updates (trace w3) =
    [{| agentName := "agent1";
        data := Json.JArray [Json.JNumber (of_string "2")];
        timestamp := 1000 |}] /\
  fileOffsets (this w3) !! log = Some 16%nat.
Proof. vm_compute. repeat split. Qed.

(** What does hold of a batch, stated of the new content the code
    computes: when that is a well-formed line, a malformed line and a
    second well-formed line (then, at most, whitespace),
    [readNewLines] returns, emits exactly the two update events of
    the well-formed lines, in order, each with the next reading of
    the clock, with only a debug message (none for a blank line) for
    the malformed one between them, and stores the length of the
    whole decoded content, which is the old offset plus the length of
    the chunk. *)
Lemma batch_of_three_lines agent p w bytes l1 bad l3 tail v1 v3 :
  readFileSync (files w) p = inr bytes ->
  slice (Utf8.decode bytes) (default 0%nat (fileOffsets (this w) !! p))
    = l1 ++ LF :: bad ++ LF :: l3 ++ tail ->
  single_line l1 -> single_line bad -> single_line l3 -> blank tail ->
  Json.parse l1 = Some v1 -> Json.parse bad = None -> Json.parse l3 = Some v3 ->
  let w' := snd (readNewLines agent p w) in
  let ev1 := {| agentName := agent; data := v1;
                timestamp := clock w (dates w) |} in
  let ev3 := {| agentName := agent; data := v3;
                timestamp := clock w (S (dates w)) |} in
  fst (readNewLines agent p w) = Ret tt /\
  updates (trace w') = updates (trace w) ++ [ev1; ev3] /\
  trace w' = trace w ++ Update ev1
               :: (if decide (trim bad = []) then []
                   else [LogDebug (MsgParseFailed bad)])
               ++ [Update ev3] /\
  fileOffsets (this w') !! p = Some (length (Utf8.decode bytes)) /\
  length (Utf8.decode bytes) =
    (default 0 (fileOffsets (this w) !! p)
     + length (l1 ++ LF :: bad ++ LF :: l3 ++ tail))%nat.
Proof.
  intros Hr Hc S1 S2 S3 Ht H1 H2 H3 w' ev1 ev3. subst w'.
  rewrite (readNewLines_read _ _ _ _ Hr). cbv zeta. rewrite Hc.
  rewrite (chunkOutputs_three_lines _ _ _ _ _ _ _ _ _ S1 S2 S3 Ht H1 H2 H3).
  cbn [fst snd]. repeat split.
  - cbn [trace put_outputs with_trace take_dates with_dates put_offset with_this].
    rewrite updates_app. cbn [updates]. rewrite updates_app.
    by destruct (decide (trim bad = [])).
  - cbn [this put_outputs with_trace take_dates with_dates put_offset with_this
           fileOffsets set_fileOffsets].
    apply lookup_insert_eq.
  - rewrite <- Hc. unfold slice. rewrite length_drop.
    assert (length (drop (default 0%nat (fileOffsets (this w) !! p)) (Utf8.decode bytes)) <> 0)%nat.
    { unfold slice in Hc. rewrite Hc, length_app. simpl.
      destruct l1; simpl; lia. }
    rewrite length_drop in H. lia.
Qed.

(** C4, after a name was registered twice. The second [watchAgent]
    replaces the first watcher in the map without closing it; [stop]
    closes what the map holds, so the first watcher stays open. When
    the file changes afterwards its listener runs [readNewLines],
    which does not look at the flag: an update event is emitted after
    [stop], and an offset is stored again. *)
Theorem leaked_watcher_emits_after_stop :
  let w := after stop (after (watchAgent homeTeamDir "agent1")
                         (after (watchAgent homeTeamDir "agent1") fresh)) in
  let w' := after (notify 0 Change) (appendFile log (line "[1]") w) in
  stopped (this w) = true /\
  watchers (this w) = ∅ /\
  heap w !! 0%nat = Some {| w_agent := "agent1"; w_path := log; w_open := true |} /\
  updates (trace w) = [] /\
  updates (trace w') =
    [{| agentName := "agent1";
        data := Json.JArray [Json.JNumber (of_string "1")];
        timestamp := 1000 |}] /\
  fileOffsets (this w') !! log = Some 4%nat.
Proof. vm_compute. repeat split. Qed.

(** C5, at a file that is not ASCII.  The log holds seven bytes
    (three two-byte characters and a line feed) when [agent1] is
    registered, so offset 7, the length of the file, is stored.  A
    change notification arrives while the file is as it was: the read
    succeeds, nothing is new and nothing is put out, and the offset
    is updated all the same, but to 4, the length of the decoded text
    in code units, not to the length 7 of the content. *)
Theorem read_stores_code_units_not_bytes :
  let w1 := after (watchAgent homeTeamDir "agent1") (holding accented true) in
  let w2 := after (notify 0 Change) w1 in
  readFileSync (files w1) log = inr accented /\
  length accented = 7%nat /\
  fileOffsets (this w1) !! log = Some 7%nat /\
  fst (notify 0 Change w1) = Ret tt /\
  trace w2 = trace w1 /\
  fileOffsets (this w2) !! log = Some 4%nat.
Proof. vm_compute. repeat split. Qed.

(** What does hold of the offset a read stores: whenever the read
    succeeds, [readNewLines] returns and the stored offset becomes
    the length of the decoded content, in code units, whatever the
    new content is; in particular when the new content is empty or
    whitespace and nothing at all is put out, and when no line of it
    parses and no update event is emitted. *)
Lemma read_stores_content_length agent p w bytes :
  readFileSync (files w) p = inr bytes ->
  let w' := snd (readNewLines agent p w) in
  let newContent :=
    slice (Utf8.decode bytes) (default 0%nat (fileOffsets (this w) !! p)) in
  fst (readNewLines agent p w) = Ret tt /\
  fileOffsets (this w') !! p = Some (length (Utf8.decode bytes)) /\
  (blank newContent ->
     trace w' = trace w /\
     fileOffsets (this w') !! p = Some (length (Utf8.decode bytes))) /\
  (Forall (fun line => Json.parse line = None) (split_lf (trim newContent)) ->
     updates (trace w') = updates (trace w) /\
     fileOffsets (this w') !! p = Some (length (Utf8.decode bytes))).
Proof.
  intros Hr w' newContent. subst w'.
  rewrite (readNewLines_read _ _ _ _ Hr). cbv zeta. fold newContent. cbn [fst snd].
  set (os := chunkOutputs agent (clock w) (dates w) newContent).
  assert (fileOffsets (this (put_outputs os
                               (take_dates (length (updates os))
                                  (put_offset p (length (Utf8.decode bytes)) w)))) !! p
          = Some (length (Utf8.decode bytes))) as Hoff.
  { cbn [this put_outputs with_trace take_dates with_dates put_offset with_this
           fileOffsets set_fileOffsets].
    apply lookup_insert_eq. }
  split; [done|]. split; [exact Hoff|]. split.
  - intros Hb. split; [|exact Hoff]. subst os. rewrite chunkOutputs_blank by done.
    cbn [trace put_outputs with_trace take_dates with_dates put_offset with_this].
    by rewrite app_nil_r.
  - intros H. split; [|exact Hoff].
    cbn [trace put_outputs with_trace take_dates with_dates put_offset with_this].
    rewrite updates_app. subst os. unfold chunkOutputs.
    destruct (decide _); [by rewrite app_nil_r|].
    rewrite updates_linesOutputs_malformed by done. by rewrite app_nil_r.
Qed.

(** C6. When the read throws, [readNewLines] still returns: it emits
    no update event, its only output is one debug message, and the
    instance (both maps and the flag), the watchers, the files and
    the clock are as before. *)
Theorem failed_read_changes_nothing agent p w e :
  readFileSync (files w) p = inl e ->
  let w' := snd (readNewLines agent p w) in
  fst (readNewLines agent p w) = Ret tt /\
  updates (trace w') = updates (trace w) /\
  trace w' = trace w ++ [LogDebug (MsgReadFailed e)] /\
  this w' = this w /\
  heap w' = heap w /\
  files w' = files w /\
  dates w' = dates w.
Proof.
  intros Hr w'. subst w'. rewrite (readNewLines_unreadable _ _ _ _ Hr).
  cbn [fst snd]. repeat split.
  cbn [trace put_outputs with_trace]. rewrite updates_app. simpl. by rewrite app_nil_r.
Qed.

(** A notification for a log that is gone. *)
Lemma failed_read_witness :
  readFileSync (files fresh) log = inl ENOENT /\
  fst (readNewLines "agent1" log fresh) = Ret tt /\
  updates (trace (snd (readNewLines "agent1" log fresh))) = updates (trace fresh).
Proof.
  split; [vm_compute; reflexivity|].
  destruct (failed_read_changes_nothing "agent1" log fresh ENOENT) as (H1 & H2 & _);
    [vm_compute; reflexivity|].
  exact (conj H1 H2).
Defined.

Section Fallback.
Variable teamDir : string -> path.

(** C7. Fallback offset: when the file is there but the read of its
    length throws, registration returns and stores offset zero (and,
    when the platform grants the watch, an open watcher for the
    file); a change notification to that watcher runs
    [readNewLines], which then takes the whole content of the file
    as new, line by line, and stores its length. *)
Theorem unreadable_at_registration_reads_all agent w e :
  stopped (this w) = false ->
  let p := statusLineLogPath teamDir (teamName (this w)) agent in
  existsSync (files w) p = true ->
  readFileSync (files w) p = inl e ->
  let w1 := snd (watchAgent teamDir agent w) in
  fst (watchAgent teamDir agent w) = Ret tt /\
  fileOffsets (this w1) !! p = Some 0%nat /\
  (watchable w p = true ->
     watchers (this w1) !! agent = Some (length (heap w)) /\
     heap w1 !! length (heap w) =
       Some {| w_agent := agent; w_path := p; w_open := true |}) /\
  forall w2 bytes,
    this w2 = this w1 ->
    readFileSync (files w2) p = inr bytes ->
    let w3 := snd (readNewLines agent p w2) in
    (forall h, heap w2 !! h = Some {| w_agent := agent; w_path := p; w_open := true |} ->
       notify h Change w2 = readNewLines agent p w2) /\
    trace w3 = trace w2 ++ chunkOutputs agent (clock w2) (dates w2) (Utf8.decode bytes) /\
    fileOffsets (this w3) !! p = Some (length (Utf8.decode bytes)).
Proof.
  intros Hs p Hex Hr w1. subst p.
  set (p := statusLineLogPath teamDir (teamName (this w)) agent) in *.
  assert (fileOffsets (this w1) !! p = Some 0%nat) as Hoff.
  { subst w1 p. rewrite (watchAgent_present_offset teamDir agent w Hs Hex).
    by rewrite Hr. }
  split; [by rewrite (watchAgent_present teamDir agent w Hs Hex)|].
  split; [exact Hoff|]. split.
  - intros Hw. subst w1. rewrite (watchAgent_present teamDir agent w Hs Hex). fold p.
    rewrite Hw. cbn [snd]. split.
    + cbn [this put_outputs with_trace put_watcher with_this watchers set_watchers].
      apply lookup_insert_eq.
    + cbn [heap put_outputs with_trace put_watcher with_this open_watcher with_heap
             put_offset].
      rewrite lookup_app_r by lia. by rewrite Nat.sub_diag.
  - intros w2 bytes Hthis Hr2 w3. split; [|split].
    + intros h Hh. unfold notify, bind, gets. rewrite Hh. reflexivity.
    + subst w3. rewrite (readNewLines_read _ _ _ _ Hr2). cbv zeta.
      rewrite Hthis, Hoff. reflexivity.
    + subst w3. rewrite (readNewLines_read _ _ _ _ Hr2).
      cbn [snd this put_outputs with_trace take_dates with_dates put_offset
             with_this fileOffsets set_fileOffsets].
      apply lookup_insert_eq.
Qed.

End Fallback.

(** A registration against a log the process may not read, which is
    readable at the first notification. *)
Lemma unreadable_witness :
  let w := holding (line "[1]") false in
  let p := statusLineLogPath homeTeamDir (teamName (this w)) "agent1" in
  let w1 := snd (watchAgent homeTeamDir "agent1" w) in
  let w2 := with_files (fun t => <[p := File (line "[1]") true]> t) w1 in
  stopped (this w) = false /\
  existsSync (files w) p = true /\
  readFileSync (files w) p = inl EACCES /\
  fileOffsets (this w1) !! p = Some 0%nat /\
  this w2 = this w1 /\
  readFileSync (files w2) p = inr (line "[1]") /\
  trace (snd (readNewLines "agent1" p w2)) =
    trace w2 ++ chunkOutputs "agent1" (clock w2) (dates w2) (Utf8.decode (line "[1]")).
Proof.
  destruct (unreadable_at_registration_reads_all homeTeamDir "agent1"
              (holding (line "[1]") false) EACCES) as (_ & Hoff & _ & Hnext);
    [reflexivity | vm_compute; reflexivity | vm_compute; reflexivity |].
  split; [reflexivity|]. split; [vm_compute; reflexivity|].
  split; [vm_compute; reflexivity|]. split; [exact Hoff|].
  split; [apply this_with_files|]. split; [vm_compute; reflexivity|].
  destruct (Hnext (with_files
                     (fun t => <[statusLineLogPath homeTeamDir
                                   (teamName (this (holding (line "[1]") false)))
                                   "agent1" := File (line "[1]") true]> t)
                     (snd (watchAgent homeTeamDir "agent1" (holding (line "[1]") false))))
              (line "[1]")) as (_ & H & _);
    [apply this_with_files | vm_compute; reflexivity | exact H].
Defined.

Section Unregistration.
Variable teamDir : string -> path.

(** C8, as the code has it. [unwatchAgent] returns; it leaves no
    watcher under the name and no offset under the name's log path,
    and the watcher that was stored under the name is closed; other
    names, other paths and other watchers are as they were, and
    files and outputs are never touched.  A second call changes
    nothing at all.  A first call changes nothing exactly when the
    name has no watcher and its log path has no offset: the offset
    is discarded whether or not the name has a watcher. *)
Theorem unwatchAgent_idempotent agent w :
  let p := statusLineLogPath teamDir (teamName (this w)) agent in
  let w1 := snd (unwatchAgent teamDir agent w) in
  fst (unwatchAgent teamDir agent w) = Ret tt /\
  unwatchAgent teamDir agent w1 = (Ret tt, w1) /\
  watchers (this w1) !! agent = None /\
  fileOffsets (this w1) !! p = None /\
  (forall h, watchers (this w) !! agent = Some h ->
     heap w1 = alter close_watcher h (heap w)) /\
  (forall h fw, watchers (this w) !! agent = Some h ->
     heap w !! h = Some fw ->
     heap w1 !! h = Some {| w_agent := w_agent fw; w_path := w_path fw;
                            w_open := false |}) /\
  (forall h h', watchers (this w) !! agent = Some h -> h' <> h ->
     heap w1 !! h' = heap w !! h') /\
  (forall a, a <> agent -> watchers (this w1) !! a = watchers (this w) !! a) /\
  (forall q, q <> p -> fileOffsets (this w1) !! q = fileOffsets (this w) !! q) /\
  (watchers (this w) !! agent = None -> heap w1 = heap w) /\
  (w1 = w <->
     watchers (this w) !! agent = None /\ fileOffsets (this w) !! p = None) /\
  files w1 = files w /\ trace w1 = trace w.
Proof.
  intros p w1. subst p w1. rewrite unwatchAgent_run. cbn [fst snd].
  set (p := statusLineLogPath teamDir (teamName (this w)) agent).
  set (w1 := drop_offset p _).
  assert (teamName (this w1) = teamName (this w)) as Htn.
  { subst w1. by destruct (watchers (this w) !! agent). }
  assert (watchers (this w1) !! agent = None) as Hw.
  { subst w1. destruct (watchers (this w) !! agent) eqn:E; cbn; [|done].
    apply lookup_delete_eq. }
  assert (fileOffsets (this w1) !! p = None) as Ho.
  { subst w1. destruct (watchers (this w) !! agent); cbn; apply lookup_delete_eq. }
  split; [done|]. split.
  { rewrite unwatchAgent_run, Htn, Hw. fold p. by rewrite drop_offset_absent. }
  split; [done|]. split; [done|]. split.
  { intros h Hh. subst w1. by rewrite Hh. }
  split.
  { intros h fw Hh Hl. subst w1. rewrite Hh.
    cbn [heap drop_offset drop_watcher shut_watcher with_this with_heap].
    by rewrite list_lookup_alter_eq, Hl. }
  split.
  { intros h h' Hh Hne. subst w1. rewrite Hh.
    cbn [heap drop_offset drop_watcher shut_watcher with_this with_heap].
    by apply list_lookup_alter_ne. }
  split.
  { intros a Ha. subst w1. destruct (watchers (this w) !! agent); cbn; [|done].
    by apply lookup_delete_ne. }
  split.
  { intros q Hq. subst w1. destruct (watchers (this w) !! agent); cbn;
      by apply lookup_delete_ne. }
  split.
  { intros Hn. subst w1. by rewrite Hn. }
  split.
  { split.
    - intros E. rewrite <- E. by split.
    - intros [Hn Hf]. subst w1. rewrite Hn. by apply drop_offset_absent. }
  subst w1. by destruct (watchers (this w) !! agent).
Qed.

End Unregistration.

(** C8 as stated fails for a name that was never registered but
    whose log path holds an offset.  Only [agent1] is registered;
    [./agent1] names the same file.  [unwatchAgent] for [./agent1]
    returns and finds no watcher, yet it discards the offset of the
    file: the offset map is not as it was, and the next notification
    to the watcher of [agent1], which before would have emitted
    nothing, emits the line that was in the log at registration. *)
Lemma unwatchAgent_of_stranger_drops_offset :
  let w := after (watchAgent homeTeamDir "agent1") (holding (line "[1]") true) in
  let w' := after (unwatchAgent homeTeamDir "./agent1") w in
  statusLineLogPath homeTeamDir "A" "./agent1" = log /\
  watchers (this w) !! "./agent1" = None /\
  fileOffsets (this w) !! log = Some 4%nat /\
  fst (unwatchAgent homeTeamDir "./agent1" w) = Ret tt /\
  fileOffsets (this w') !! log = None /\
  watchers (this w') !! "agent1" = Some 0%nat /\
  updates (trace (after (notify 0 Change) w)) = [] /\
  updates (trace (after (notify 0 Change) w')) =
    [{| agentName := "agent1";
        data := Json.JArray [Json.JNumber (of_string "1")];
        timestamp := 1000 |}].
Proof. vm_compute. repeat split. Qed.

Section Storage.
Variable teamDir : string -> path.


End Storage.



(** C10 as stated fails when the name already has a watcher: after a
    successful registration the platform refuses further watches; the
    second registration logs the failure, and the watcher of the first
    is still stored under the name. *)
Lemma failed_reattach_keeps_old_watcher :
  let w := refuse_watches (after (watchAgent homeTeamDir "agent1") fresh) in
  let w' := after (watchAgent homeTeamDir "agent1") w in
  stopped (this w) = false /\
  watchable w log = false /\
  fst (watchAgent homeTeamDir "agent1" w) = Ret tt /\
  trace w' = trace w ++ [LogError (MsgWatchFailed "agent1" ENOSPC)] /\
  watchers (this w') !! "agent1" = Some 0%nat.
Proof. vm_compute. repeat split. Qed.

Section FailedAttach.
Variable teamDir : string -> path.

(** C10, as the code has it. When the platform refuses the watch,
    registration still returns: the map of watchers and the watchers
    themselves are exactly as before (so a name without a watcher
    still has none), the failure is logged as an error, and the
    offset stored earlier in the call stays under the file; the next
    successful registration of the name replaces it and stores a
    watcher. *)
Theorem failed_attach_keeps_offset agent w :
  stopped (this w) = false ->
  let p := statusLineLogPath teamDir (teamName (this w)) agent in
  creatable (files w) p ->
  watchable w p = false ->
  let w1 := snd (watchAgent teamDir agent w) in
  fst (watchAgent teamDir agent w) = Ret tt /\
  watchers (this w1) = watchers (this w) /\
  (watchers (this w) !! agent = None -> watchers (this w1) !! agent = None) /\
  heap w1 = heap w /\
  fileOffsets (this w1) !! p =
    Some (match readFileSync (files w1) p with
          | inr b => length b | inl _ => 0%nat end) /\
  trace w1 = trace w ++ [LogError (MsgWatchFailed agent ENOSPC)] /\
  forall w2 bytes,
    this w2 = this w1 ->
    readFileSync (files w2) p = inr bytes ->
    watchable w2 p = true ->
    let w3 := snd (watchAgent teamDir agent w2) in
    fileOffsets (this w3) !! p = Some (length bytes) /\
    watchers (this w3) !! agent = Some (length (heap w2)).
Proof.
  intros Hs p Hc Hw w1. subst p.
  set (p := statusLineLogPath teamDir (teamName (this w)) agent) in *.
  destruct (create_if_missing _ _ Hc) as (t' & Ht & Hex & _).
  assert (watchAgent teamDir agent w =
            (Ret tt, put_outputs [LogError (MsgWatchFailed agent ENOSPC)]
               (put_offset p (match readFileSync t' p with
                              | inr b => length b | inl _ => 0%nat end)
                  (with_files (fun _ => t') w)))) as Hrun.
  { rewrite (watchAgent_running teamDir agent w Hs). fold p.
    rewrite Ht. cbv zeta. by rewrite Hex, Hw. }
  subst w1. rewrite Hrun. cbn [fst snd].
  split; [done|]. split; [done|]. split; [done|]. split; [done|]. split.
  { cbn. apply lookup_insert_eq. }
  split; [done|].
  intros w2 bytes Hthis Hr2 Hw2.
  assert (teamName (this w2) = teamName (this w)) as Htn by by rewrite Hthis.
  assert (stopped (this w2) = false) as Hs2 by by rewrite Hthis.
  pose proof (readFileSync_exists _ _ _ Hr2) as Hex2.
  subst p. rewrite <- Htn in Hex2, Hr2, Hw2 |- *.
  split.
  - rewrite (watchAgent_present_offset teamDir agent w2 Hs2 Hex2). by rewrite Hr2.
  - rewrite (watchAgent_present teamDir agent w2 Hs2 Hex2), Hw2. cbn.
    apply lookup_insert_eq.
Qed.

End FailedAttach.

(** A first registration while the platform grants no watch, and a
    second one once it does. *)
Lemma failed_attach_witness :
  let w := refuse_watches fresh in
  let p := statusLineLogPath homeTeamDir (teamName (this w)) "agent1" in
  let w1 := snd (watchAgent homeTeamDir "agent1" w) in
  let w2 := grant_watches w1 in
  stopped (this w) = false /\
  creatable (files w) p /\
  watchable w p = false /\
  watchers (this w1) = watchers (this w) /\
  fileOffsets (this w1) !! p =
    Some (match readFileSync (files w1) p with
          | inr b => length b | inl _ => 0%nat end) /\
  readFileSync (files w2) p = inr [] /\
  watchers (this (snd (watchAgent homeTeamDir "agent1" w2))) !! "agent1"
    = Some (length (heap w2)).
Proof.
  assert (creatable (files (refuse_watches fresh))
            (statusLineLogPath homeTeamDir (teamName (this (refuse_watches fresh))) "agent1"))
    as Hc by (right; vm_compute; reflexivity).
  destruct (failed_attach_keeps_offset homeTeamDir "agent1" (refuse_watches fresh))
    as (_ & Hw & _ & _ & Hoff & _ & Hnext); [reflexivity | exact Hc | reflexivity |].
  split; [reflexivity|]. split; [exact Hc|]. split; [reflexivity|].
  split; [exact Hw|]. split; [exact Hoff|]. split; [vm_compute; reflexivity|].
  destruct (Hnext (grant_watches (snd (watchAgent homeTeamDir "agent1" (refuse_watches fresh))))
              []) as (_ & H);
    [apply this_grant_watches | vm_compute; reflexivity
    | apply watchable_grant_watches | exact H].
Defined.

End Claims.

(** * Facts about the command and the settings *)
Module CommandFacts.
Import JsString Command.

Lemma escapedPath_cons c p :
  escapedPath (c :: p) = escapeUnit c ++ escapedPath p.
Proof.
  unfold escapedPath, replaceEach, escapeUnit. cbn [flat_map].
  rewrite flat_map_app.
  destruct (N.eqb_spec c BACKSLASH) as [->|Hb]; [reflexivity|].
  cbn [flat_map app]. destruct (c =? APOSTROPHE); reflexivity.
Qed.

Lemma escapedPath_nil : escapedPath [] = [].
Proof. reflexivity. Qed.

Lemma escapedPath_injective p : forall q, escapedPath p = escapedPath q -> p = q.
Proof.
  induction p as [|c p IH]; intros [|d q].
  - done.
  - rewrite escapedPath_nil, escapedPath_cons. unfold escapeUnit.
    destruct (d =? BACKSLASH); [done|]. by destruct (d =? APOSTROPHE).
  - rewrite escapedPath_nil, escapedPath_cons. unfold escapeUnit.
    destruct (c =? BACKSLASH); [done|]. by destruct (c =? APOSTROPHE).
  - rewrite !escapedPath_cons. unfold escapeUnit.
    destruct (N.eqb_spec c BACKSLASH) as [->|Hcb];
      destruct (N.eqb_spec d BACKSLASH) as [->|Hdb];
      try destruct (N.eqb_spec c APOSTROPHE) as [->|Hca];
      try destruct (N.eqb_spec d APOSTROPHE) as [->|Hda];
      intros H; simpl in H; simplify_eq; try done; f_equal; by apply IH.
Qed.

Lemma buildStatusLineCommand_shape p :
  buildStatusLineCommand p = commandHead ++ escapedPath p ++ commandTail.
Proof.
  unfold buildStatusLineCommand, commandHead, commandTail. cbn [join_with].
  rewrite <- !app_assoc. reflexivity.
Qed.

Lemma bare_apostrophes_escaped p : forall r,
  bare_apostrophes false (escapedPath p ++ r) = bare_apostrophes false r.
Proof.
  induction p as [|c p IH]; intros r; [done|].
  rewrite escapedPath_cons, <- app_assoc. unfold escapeUnit.
  destruct (N.eqb_spec c BACKSLASH) as [->|Hb]; [apply IH|].
  destruct (N.eqb_spec c APOSTROPHE) as [->|Ha]; [apply IH|].
  cbn [app bare_apostrophes].
  destruct (N.eqb_spec c BACKSLASH); [done|].
  destruct (N.eqb_spec c APOSTROPHE); [done|]. apply IH.
Qed.

Lemma bare_apostrophes_head r :
  bare_apostrophes false (commandHead ++ r) = S (bare_apostrophes false r).
Proof. vm_compute. reflexivity. Qed.

Lemma escapedPath_length p :
  length (escapedPath p) =
    (length p + length (filter (fun c => c = BACKSLASH \/ c = APOSTROPHE) p))%nat.
Proof.
  induction p as [|c p IH]; [done|].
  rewrite escapedPath_cons, length_app, IH, filter_cons. unfold escapeUnit.
  destruct (N.eqb_spec c BACKSLASH) as [->|Hb].
  { rewrite decide_True by by left. simpl. lia. }
  destruct (N.eqb_spec c APOSTROPHE) as [->|Ha].
  { rewrite decide_True by by right. simpl. lia. }
  rewrite decide_False by tauto. simpl. lia.
Qed.

(** The apostrophes of a text. *)
Lemma apostrophes_escaped p :
  length (filter (fun c => c = APOSTROPHE) (escapedPath p)) =
    length (filter (fun c => c = APOSTROPHE) p).
Proof.
  induction p as [|c p IH]; [done|].
  rewrite escapedPath_cons, filter_app, length_app, IH, filter_cons.
  unfold escapeUnit.
  destruct (N.eqb_spec c BACKSLASH) as [->|Hb]; [reflexivity|].
  destruct (N.eqb_spec c APOSTROPHE) as [->|Ha]; [reflexivity|].
  rewrite filter_cons, filter_nil. by rewrite !decide_False by done.
Qed.

Lemma apostrophes_head :
  length (filter (fun c => c = APOSTROPHE) commandHead) = 1%nat.
Proof. vm_compute. reflexivity. Qed.

Lemma apostrophes_tail :
  length (filter (fun c => c = APOSTROPHE) commandTail) = 1%nat.
Proof. vm_compute. reflexivity. Qed.

End CommandFacts.

(** * The command and the settings *)
Module CommandProps.
Import JsString Command CommandFacts.

(** X1. Two log paths never get the same command: the path can be told
    from the command text. *)
Theorem buildStatusLineCommand_injective p q :
  buildStatusLineCommand p = buildStatusLineCommand q -> p = q.
Proof.
  intros H. rewrite !buildStatusLineCommand_shape in H.
  apply app_inv_head, app_inv_tail in H. by apply escapedPath_injective.
Qed.

Lemma buildStatusLineCommand_injective_witness :
  buildStatusLineCommand (of_string "/t/a.jsonl")
    = buildStatusLineCommand (of_string "/t/a.jsonl") /\
  of_string "/t/a.jsonl" = of_string "/t/a.jsonl".
Proof.
  split; [reflexivity|].
  apply (buildStatusLineCommand_injective (of_string "/t/a.jsonl")
           (of_string "/t/a.jsonl")).
  reflexivity.
Defined.

(** X2. The command holds the two apostrophes that delimit the
    argument of [-c], its twelfth code unit and its last one, and one
    more for each apostrophe of the path.  Those of the path each follow
    a backslash: for a reader to whom a backslash escapes the next code
    unit, the escaped path has no apostrophe of its own and the command
    has exactly two. *)
Theorem command_has_two_bare_apostrophes p :
  length (filter (fun c => c = APOSTROPHE) (buildStatusLineCommand p)) =
    (2 + length (filter (fun c => c = APOSTROPHE) p))%nat /\
  bare_apostrophes false (buildStatusLineCommand p) = 2%nat /\
  bare_apostrophes false (escapedPath p) = 0%nat /\
  buildStatusLineCommand p !! 11%nat = Some APOSTROPHE /\
  last (buildStatusLineCommand p) = Some APOSTROPHE.
Proof.
  rewrite buildStatusLineCommand_shape. split; [|split; [|split; [|split]]].
  - rewrite !filter_app, !length_app, apostrophes_head, apostrophes_tail,
      apostrophes_escaped. lia.
  - rewrite bare_apostrophes_head, bare_apostrophes_escaped. reflexivity.
  - rewrite <- (app_nil_r (escapedPath p)). by rewrite bare_apostrophes_escaped.
  - reflexivity.
  - unfold commandTail. rewrite !app_assoc. by rewrite last_snoc.
Qed.

(** X3. The path is put into the command unchanged exactly when it has
    neither a backslash nor an apostrophe; every other code unit, the
    double quote that would end the Python string included, is left as
    it is. *)
Theorem escapedPath_verbatim p :
  escapedPath p = p <->
    Forall (fun c => c <> BACKSLASH /\ c <> APOSTROPHE) p.
Proof.
  split.
  - intros H. apply (f_equal length) in H. rewrite escapedPath_length in H.
    assert (filter (fun c => c = BACKSLASH \/ c = APOSTROPHE) p = []) as Hf.
    { apply length_zero_iff_nil. lia. }
    apply Forall_forall. intros c Hc.
    assert (c ∉ filter (fun c => c = BACKSLASH \/ c = APOSTROPHE) p) as Hn
      by (rewrite Hf; apply not_elem_of_nil).
    rewrite list_elem_of_filter in Hn. tauto.
  - induction 1 as [|c p [Hb Ha] _ IH]; [done|].
    rewrite escapedPath_cons, IH. unfold escapeUnit.
    destruct (N.eqb_spec c BACKSLASH); [done|].
    by destruct (N.eqb_spec c APOSTROPHE).
Qed.

(** X4. Two log paths never get the same settings object. *)
Theorem buildStatusLineSettings_injective p q :
  buildStatusLineSettings p = buildStatusLineSettings q -> p = q.
Proof.
  unfold buildStatusLineSettings. intros H.
  injection H as Hc.
  do 2 apply app_inv_tail in Hc. by apply escapedPath_injective.
Qed.

Lemma buildStatusLineSettings_injective_witness :
  buildStatusLineSettings (of_string "/t/a.jsonl")
    = buildStatusLineSettings (of_string "/t/a.jsonl") /\
  of_string "/t/a.jsonl" = of_string "/t/a.jsonl".
Proof.
  split; [reflexivity|].
  apply (buildStatusLineSettings_injective (of_string "/t/a.jsonl")
           (of_string "/t/a.jsonl")).
  reflexivity.
Defined.

End CommandProps.

(** * Facts about the paths *)
Module PathFacts.
Import Fs JsString Watcher Shapes.
Local Open Scope nat_scope.
Local Open Scope string_scope.
Local Open Scope list_scope.

Lemma split_slash_plain s : has_slash s = false -> split_slash s = [s].
Proof.
  induction s as [|a s IH]; [done|]. cbn [has_slash split_slash].
  destruct (Ascii.eqb a "/"); [done|]. cbn [orb]. intros H. by rewrite IH.
Qed.

Lemma has_slash_append s t :
  has_slash (String.append s t) = has_slash s || has_slash t.
Proof.
  induction s as [|a s IH]; [done|]. simpl.
  rewrite IH. by rewrite orb_assoc.
Qed.

Lemma length_append s t :
  String.length (String.append s t) = String.length s + String.length t.
Proof. induction s as [|a s IH]; [done|]. simpl. by rewrite IH. Qed.

Lemma enter_long p seg : 2 < String.length seg -> enter p seg = p ++ [seg].
Proof.
  intros H. unfold enter.
  destruct (String.eqb_spec seg "") as [->|_]; [simpl in H; lia|].
  destruct (String.eqb_spec seg ".") as [->|_]; [simpl in H; lia|].
  destruct (String.eqb_spec seg "..") as [->|_]; [simpl in H; lia|].
  reflexivity.
Qed.

Lemma append_inj_r s t u : String.append s u = String.append t u -> s = t.
Proof.
  revert t. induction s as [|a s IH]; intros [|b t] H.
  - done.
  - apply (f_equal String.length) in H. simpl in H. rewrite !length_append in H.
    simpl in H. lia.
  - apply (f_equal String.length) in H. simpl in H. rewrite !length_append in H.
    simpl in H. lia.
  - simpl in H. injection H as -> H. f_equal. by apply IH.
Qed.

Lemma split_dotdot s :
  split_slash (String.append "../" s) = ".." :: split_slash s.
Proof. reflexivity. Qed.

Lemma enter_dotdot p : enter p ".." = removelast p.
Proof. reflexivity. Qed.

Section Paths.
Variable teamDir : string -> path.

Lemma statusLineDir_eq team : statusLineDir teamDir team = teamDir team ++ ["statusline"].
Proof. reflexivity. Qed.

(** The log of an agent whose name has no slash. *)
Lemma statusLineLogPath_plain team agent :
  has_slash agent = false ->
  statusLineLogPath teamDir team agent =
    teamDir team ++ ["statusline"; String.append agent ".jsonl"].
Proof.
  intros H. unfold statusLineLogPath. rewrite statusLineDir_eq. unfold join.
  rewrite split_slash_plain by (rewrite has_slash_append, H; reflexivity).
  cbn [fold_left]. rewrite enter_long.
  - by rewrite <- app_assoc.
  - rewrite length_append. simpl. lia.
Qed.

End Paths.

End PathFacts.

(** * Where the logs are *)
Module PathProps.
Import Fs JsString Watcher Shapes PathFacts.
Local Open Scope nat_scope.
Local Open Scope string_scope.
Local Open Scope list_scope.

Section Paths.
Variable teamDir : string -> path.

(** X5. For agent names without a slash, the log is the file
    [<agent>.jsonl] directly inside the status line directory, and two
    such names never share a log. *)
Theorem plain_names_get_their_own_log team agent :
  has_slash agent = false ->
  statusLineLogPath teamDir team agent =
    statusLineDir teamDir team ++ [String.append agent ".jsonl"] /\
  dirname (statusLineLogPath teamDir team agent) = statusLineDir teamDir team /\
  forall other,
    has_slash other = false ->
    statusLineLogPath teamDir team other = statusLineLogPath teamDir team agent ->
    other = agent.
Proof.
  intros H. rewrite (statusLineLogPath_plain teamDir team agent H), statusLineDir_eq.
  split; [by rewrite <- app_assoc|]. split.
  - unfold dirname.
    replace (teamDir team ++ ["statusline"; String.append agent ".jsonl"])
      with ((teamDir team ++ ["statusline"]) ++ [String.append agent ".jsonl"])
      by by rewrite <- app_assoc.
    apply removelast_last.
  - intros other Ho E. rewrite (statusLineLogPath_plain teamDir team other Ho) in E.
    apply app_inv_head in E. injection E as E. by apply append_inj_r in E.
Qed.

(** X6. The agent name is joined to the directory as a relative path:
    a name that starts with [../] puts the log outside the status line
    directory, next to it in the team directory. *)
Theorem dotdot_name_leaves_the_directory team name :
  has_slash name = false ->
  statusLineLogPath teamDir team (String.append "../" name) =
    teamDir team ++ [String.append name ".jsonl"] /\
  (teamDir team <> [] ->
   dirname (statusLineLogPath teamDir team (String.append "../" name))
     <> statusLineDir teamDir team).
Proof.
  intros H.
  assert (statusLineLogPath teamDir team (String.append "../" name) =
            teamDir team ++ [String.append name ".jsonl"]) as E.
  { unfold statusLineLogPath. rewrite statusLineDir_eq. unfold join.
    change (String.append (String.append "../" name) ".jsonl")
      with (String.append "../" (String.append name ".jsonl")).
    rewrite split_dotdot.
    rewrite split_slash_plain by (rewrite has_slash_append, H; reflexivity).
    cbn [fold_left]. rewrite enter_dotdot, removelast_last.
    apply enter_long. rewrite length_append. simpl. lia. }
  split; [exact E|]. intros Hne. rewrite E, statusLineDir_eq. unfold dirname.
  rewrite removelast_last. intros Heq. apply (f_equal length) in Heq.
  rewrite length_app in Heq. simpl in Heq. lia.
Qed.

End Paths.

(** The log of [agent1] in team [A]. *)
Lemma plain_names_get_their_own_log_witness :
  has_slash "agent1" = false /\
  statusLineLogPath Example.homeTeamDir "A" "agent1" = Example.log.
Proof.
  split; [reflexivity|].
  destruct (plain_names_get_their_own_log Example.homeTeamDir "A" "agent1" eq_refl)
    as (H & _).
  rewrite H. reflexivity.
Defined.

(** The log of an agent called [../x] in team [A]. *)
Lemma dotdot_name_leaves_the_directory_witness :
  has_slash "x" = false /\
  statusLineLogPath Example.homeTeamDir "A" "../x" = ["home"; "teams"; "A"; "x.jsonl"].
Proof.
  split; [reflexivity|].
  destruct (dotdot_name_leaves_the_directory Example.homeTeamDir "A" "x" eq_refl)
    as (H & _).
  exact H.
Defined.

End PathProps.

(** * Facts about errors and files *)
Module FilesFacts.
Import Fs JsString Watcher Shapes Protocol WatcherFacts PathFacts.
Local Open Scope nat_scope.
Local Open Scope M_scope.

Lemma existsSync_lookup t p : p <> [] -> existsSync t p = false <-> t !! p = None.
Proof.
  intros Hne. unfold existsSync. rewrite (lookup_node_nonempty _ _ Hne).
  destruct (t !! p); split; done.
Qed.

Lemma existsSync_root t : existsSync t [] = true.
Proof. reflexivity. Qed.

Lemma missing_nonempty t p : existsSync t p = false -> p <> [].
Proof. intros H ->. by rewrite existsSync_root in H. Qed.

(** The create-if-missing step of [watchAgent]: what it returns. *)
Lemma create_outcome t p :
  existsSync t p = false ->
  writeFileSync t p [] =
    match lookup_node t (dirname p) with
    | Some Dir => inr (<[p := File [] true]> t)
    | Some (Sealed e) => inl e
    | Some (File _ _) => inl ENOTDIR
    | None => inl (absent t p)
    end.
Proof.
  intros Hex. unfold writeFileSync. unfold existsSync in Hex.
  by destruct (lookup_node t p).
Qed.

Lemma absent_cases t p : absent t p = ENOENT \/ absent t p = ENOTDIR.
Proof. unfold absent. destruct (file_above t p); [by right|by left]. Qed.

Section Paths.
Variable teamDir : string -> path.

Lemma statusLineDir_nonempty team : statusLineDir teamDir team <> [].
Proof. rewrite statusLineDir_eq. by destruct (teamDir team). Qed.


(** How a call of [ensureDir] ends.  When it returns, something was
    at the directory's path and nothing changed, or nothing was and
    the missing directories on the way were made.  When it throws,
    nothing changed: a regular file is above the directory, or
    something is missing below a directory that refuses entries. *)
Lemma ensureDir_outcome w :
  let dir := statusLineDir teamDir (teamName (this w)) in
  match ensureDir teamDir w with
  | (Ret _, w') =>
      (existsSync (files w) dir = true /\ w' = w) \/
      (existsSync (files w) dir = false /\
       exists t', w' = with_files (fun _ => t') w /\
         (forall q n, files w !! q = Some n -> t' !! q = Some n) /\
         (forall q, files w !! q = None -> q ∈ ancestors dir -> t' !! q = Some Dir) /\
         (forall q, q ∉ ancestors dir -> t' !! q = files w !! q) /\
         (forall q, q ∈ ancestors dir -> forall c r, files w !! q <> Some (File c r)))
  | (Throw e, w') =>
      w' = w /\ existsSync (files w) dir = false /\
      ((e = ENOTDIR /\
        exists q c r, q ∈ ancestors dir /\ q <> dir /\
                      files w !! q = Some (File c r)) \/
       (exists q, q ∈ [] :: ancestors dir /\ q <> dir /\
                  lookup_node (files w) q = Some (Sealed e)))
  end.
Proof.
  intros dir. rewrite ensureDir_run. fold dir.
  destruct (existsSync (files w) dir) eqn:Hex; [by left|].
  pose proof (statusLineDir_nonempty (teamName (this w))) as Hne. fold dir in Hne.
  pose proof (proj1 (existsSync_lookup _ _ Hne) Hex) as Hn.
  unfold mkdirSync_recursive.
  destruct (mkdir_from (files w) [] dir) as [e|t'] eqn:Hm.
  - split; [done|]. split; [done|].
    apply mkdir_from_error in Hm as [(k & c & r & Hk & Hf & ->)|(k & Hk & Hs & _)];
      cbn [app] in *.
    + assert (k <> length dir) as Hlast.
      { intros ->. rewrite firstn_all in Hf. congruence. }
      rewrite decide_False by done. left. split; [done|].
      exists (take k dir), c, r. split; [|split; [|done]].
      * apply elem_of_ancestors. by exists k.
      * intros E. apply (f_equal length) in E. rewrite length_take in E. lia.
    + right. exists (take k dir). split; [|split; [|done]].
      * destruct k as [|k]; [rewrite take_0; apply list_elem_of_here|].
        apply list_elem_of_further, elem_of_ancestors. exists (S k). split; [lia|done].
      * intros E. apply (f_equal length) in E. rewrite length_take in E. lia.
  - right. split; [done|]. exists t'. split; [done|].
    assert (forall q, q ∈ ancestors dir -> forall c r, files w !! q <> Some (File c r))
      as Hfree.
    { intros q Hq c r Hf. apply elem_of_ancestors in Hq as (k & Hk & ->).
      destruct (mkdir_from_blocked dir (files w) [] k c r Hk Hf) as [e He].
      congruence. }
    destruct (mkdir_from_creates _ _ _ _ Hm) as [Hdirs Hframe].
    cbn [app] in Hdirs, Hframe.
    assert (forall q, q ∉ ancestors dir -> t' !! q = files w !! q) as Hout.
    { intros q Hq. apply Hframe. intros k Hk ->. apply Hq, elem_of_ancestors.
      by exists k. }
    split; [|split; [|split; [done|done]]].
    + intros q n Hq. destruct (decide (q ∈ ancestors dir)) as [Hin|Hin].
      * apply elem_of_ancestors in Hin as (k & Hk & ->).
        specialize (Hdirs k Hk). rewrite Hq in Hdirs. by destruct n.
      * by rewrite Hout.
    + intros q Hq (k & Hk & ->)%elem_of_ancestors.
      specialize (Hdirs k Hk). by rewrite Hq in Hdirs.
Qed.

(** How a call of [watchAgent] on a running instance ends, and what
    it leaves of the files. *)
Lemma watchAgent_outcome agent w :
  stopped (this w) = false ->
  let p := statusLineLogPath teamDir (teamName (this w)) agent in
  match watchAgent teamDir agent w with
  | (Ret _, w') =>
      creatable (files w) p /\ existsSync (files w') p = true /\
      files w' = if existsSync (files w) p then files w
                 else <[p := File [] true]> (files w)
  | (Throw e, w') =>
      w' = w /\ existsSync (files w) p = false /\
      match lookup_node (files w) (dirname p) with
      | Some Dir => False
      | Some (Sealed e') => e = e'
      | Some (File _ _) => e = ENOTDIR
      | None => e = absent (files w) p
      end
  end.
Proof.
  intros Hs p. rewrite (watchAgent_running teamDir agent w Hs). fold p. cbv zeta.
  destruct (existsSync (files w) p) eqn:Hex.
  - split; [by left|]. split; [|by repeat case_match].
    rewrite Hex. cbn [negb]. by destruct (negb (watchable w p)).
  - rewrite (create_outcome _ _ Hex).
    destruct (lookup_node (files w) (dirname p)) as [[c r| |e']|] eqn:Hd;
      [done| |done|done].
    assert (existsSync (<[p := File [] true]> (files w)) p = true) as Hnow.
    { unfold existsSync. rewrite (lookup_node_nonempty _ _ (missing_nonempty _ _ Hex)).
      by rewrite lookup_insert_eq. }
    split; [by right|]. rewrite Hnow. cbn [negb].
    by destruct (negb (watchable w p)).
Qed.

End Paths.

End FilesFacts.

(** * Facts about what each call leaves alone *)
Module FrameFacts.
Import Fs JsString Watcher Shapes Protocol WatcherFacts PathFacts FilesFacts.
Local Open Scope nat_scope.
Local Open Scope M_scope.

(** What [readNewLines] leaves alone, and what it adds. *)
Lemma readNewLines_frame agent p w :
  let w' := snd (readNewLines agent p w) in
  files w' = files w /\ heap w' = heap w /\
  watchable w' = watchable w /\ clock w' = clock w /\
  watchers (this w') = watchers (this w) /\
  stopped (this w') = stopped (this w) /\
  teamName (this w') = teamName (this w) /\
  (forall q, q <> p -> fileOffsets (this w') !! q = fileOffsets (this w) !! q) /\
  exists os, trace w' = trace w ++ os /\
             dates w' = length (updates os) + dates w /\
             (forall e, readFileSync (files w) p = inl e ->
                        os = [LogDebug (MsgReadFailed e)] /\ this w' = this w) /\
             (forall bytes, readFileSync (files w) p = inr bytes ->
                os = chunkOutputs agent (clock w) (dates w)
                       (slice (Utf8.decode bytes)
                          (default 0 (fileOffsets (this w) !! p))) /\
                fileOffsets (this w') !! p = Some (length (Utf8.decode bytes))).
Proof.
  intros w'. subst w'.
  destruct (readFileSync (files w) p) as [e|bytes] eqn:Hr.
  - rewrite (readNewLines_unreadable _ _ _ _ Hr). cbn [snd].
    repeat (split; [done|]). eexists. split; [reflexivity|]. split; [done|].
    split; [|done]. by intros e' [= <-].
  - rewrite (readNewLines_read _ _ _ _ Hr). cbv zeta. cbn [snd].
    repeat (split; [done|]). split.
    + intros q Hq.
      cbn [this put_outputs with_trace take_dates with_dates put_offset with_this
             fileOffsets set_fileOffsets].
      by rewrite lookup_insert_ne.
    + eexists. split; [reflexivity|]. split; [done|]. split; [done|].
      intros b [= <-]. split; [done|].
      cbn [this put_outputs with_trace take_dates with_dates put_offset with_this
             fileOffsets set_fileOffsets].
      apply lookup_insert_eq.
Qed.

Lemma notify_returns h ev w : fst (notify h ev w) = Ret tt.
Proof.
  unfold notify, bind, gets. destruct (heap w !! h) as [fw|]; [|done].
  destruct (w_open fw); [|done]. destruct ev; [|done].
  apply readNewLines_returns.
Qed.

(** A notification does what [readNewLines] does, or nothing. *)
Lemma notify_cases h ev w :
  (exists fw, heap w !! h = Some fw /\ w_open fw = true /\ ev = Change /\
              notify h ev w = readNewLines (w_agent fw) (w_path fw) w) \/
  notify h ev w = (Ret tt, w).
Proof.
  unfold notify, bind, gets. destruct (heap w !! h) as [fw|] eqn:E; [|by right].
  destruct (w_open fw) eqn:Ho; [|by right]. destruct ev; [|by right].
  left. by exists fw.
Qed.

Section Methods.
Variable teamDir : string -> path.

Lemma files_unwatchAgent agent w :
  files (snd (unwatchAgent teamDir agent w)) = files w.
Proof. rewrite unwatchAgent_run. cbn [snd]. by destruct (watchers (this w) !! agent). Qed.

Lemma files_stop w : files (snd (stop w)) = files w.
Proof. by rewrite stop_run. Qed.

Lemma files_notify h ev w : files (snd (notify h ev w)) = files w.
Proof.
  destruct (notify_cases h ev w) as [(fw & _ & _ & _ & Hn) | Hn]; rewrite Hn; [|done].
  apply readNewLines_frame.
Qed.

End Methods.

End FrameFacts.

(** * Errors and files: what the methods do when the disk is not as
    hoped *)
Module DiskProps.
Import Fs JsString Watcher Shapes Protocol WatcherFacts PathFacts FilesFacts FrameFacts.
Import Example.
Local Open Scope nat_scope.
Local Open Scope M_scope.

Section Methods.
Variable teamDir : string -> path.


(** X8. On a running instance [watchAgent] returns exactly when the
    log exists or its directory is one that takes new entries.
    Otherwise the create-if-missing write, which is outside every
    [try], throws to the caller and the instance, the files and the
    outputs are as before: the directory's own error when it refuses
    the file, [ENOTDIR] when a regular file is in its place or above
    it, [ENOENT] when it is simply missing. *)
Theorem watchAgent_throws_without_the_directory agent w :
  stopped (this w) = false ->
  let p := statusLineLogPath teamDir (teamName (this w)) agent in
  (fst (watchAgent teamDir agent w) = Ret tt <-> creatable (files w) p) /\
  (forall e, fst (watchAgent teamDir agent w) = Throw e ->
     snd (watchAgent teamDir agent w) = w) /\
  (lookup_node (files w) p = None ->
   match lookup_node (files w) (dirname p) with
   | Some Dir => fst (watchAgent teamDir agent w) = Ret tt
   | Some (Sealed e) => watchAgent teamDir agent w = (Throw e, w)
   | Some (File _ _) => watchAgent teamDir agent w = (Throw ENOTDIR, w)
   | None =>
       watchAgent teamDir agent w =
         (Throw (if file_above (files w) p then ENOTDIR else ENOENT), w)
   end).
Proof.
  intros Hs p. pose proof (watchAgent_outcome teamDir agent w Hs) as H.
  fold p in H. cbv zeta in H.
  assert (forall t q, lookup_node t q = None -> existsSync t q = false) as Hmiss.
  { intros t q Hq. unfold existsSync. by rewrite Hq. }
  split; [|split].
  - destruct (watchAgent teamDir agent w) as [[[]|e] w']; cbn [fst].
    + split; [|done]. intros _. apply H.
    + destruct H as (_ & Hex & Hd). split; [done|].
      intros [Hc|Hc]; [congruence|]. by rewrite Hc in Hd.
  - intros e He. destruct (watchAgent teamDir agent w) as [[[]|e'] w']; cbn [fst snd] in *;
      [done|]. by destruct H as (-> & _).
  - intros Hp. destruct (watchAgent teamDir agent w) as [[[]|e] w'].
    + destruct H as ([Hc|Hc] & _).
      * by rewrite (Hmiss _ _ Hp) in Hc.
      * by rewrite Hc.
    + destruct H as (-> & _ & He).
      destruct (lookup_node (files w) (dirname p)) as [[c r| |e']|];
        [by subst e|done|by subst e|by subst e].
Qed.


(** X10. No call and no notification ever removes or alters what is
    on the disk: a path that names something names the same thing
    afterwards, an existing log keeps its content.  What appears is a
    directory made by [ensureDir] or the empty log that [watchAgent]
    creates. *)
Theorem calls_only_add_to_the_disk c w q :
  let w' := snd (perform teamDir c w) in
  (forall n, files w !! q = Some n -> files w' !! q = Some n) /\
  (files w !! q = None ->
     files w' !! q = None \/
     (c = EnsureDir /\ files w' !! q = Some Dir) \/
     (exists agent, c = WatchAgent agent /\ files w' !! q = Some (File [] true))).
Proof.
  intros w'. subst w'. destruct c as [|agent|agent| |h ev]; cbn [perform].
  - pose proof (ensureDir_outcome teamDir w) as H. cbv zeta in H.
    destruct (ensureDir teamDir w) as [[[]|e] w1]; cbn [snd].
    + destruct H as [[_ ->]|(_ & t' & -> & Hold & Hnew & Hframe & _)].
      { split; [done|]. by left. }
      cbn [files with_files]. split; [apply Hold|]. intros Hn.
      destruct (decide (q ∈ ancestors (statusLineDir teamDir (teamName (this w)))))
        as [Hq|Hq].
      * right. left. split; [done|]. by apply Hnew.
      * left. by rewrite (Hframe q Hq).
    + destruct H as (-> & _). split; [done|]. by left.
  - destruct (stopped (this w)) eqn:Hs.
    { rewrite (watchAgent_stopped teamDir agent w Hs). split; [done|]. by left. }
    pose proof (watchAgent_outcome teamDir agent w Hs) as H. cbv zeta in H.
    destruct (watchAgent teamDir agent w) as [[[]|e] w1]; cbn [snd].
    + destruct H as (_ & _ & ->).
      destruct (existsSync (files w) _) eqn:Hex; [split; [done|by left]|].
      set (p := statusLineLogPath teamDir (teamName (this w)) agent) in *.
      destruct (decide (q = p)) as [->|Hq].
      * rewrite lookup_insert_eq.
        apply existsSync_lookup in Hex; [|by apply (missing_nonempty (files w))].
        rewrite Hex. split; [done|]. intros _. right. right. by exists agent.
      * rewrite lookup_insert_ne by done. split; [done|]. by left.
    + destruct H as (-> & _). split; [done|]. by left.
  - rewrite files_unwatchAgent. split; [done|]. by left.
  - rewrite files_stop. split; [done|]. by left.
  - rewrite files_notify. split; [done|]. by left.
Qed.

End Methods.


(** Registration without [ensureDir]: on an empty disk it throws
    [ENOENT], with a regular file in place of the team's directory
    [ENOTDIR], and in a directory of mode 555 [EACCES]. *)
Lemma watchAgent_throws_without_the_directory_witness :
  let w1 := with_files (fun _ => ∅) fresh in
  let w2 := with_files (fun _ => disk_blocked) fresh in
  let w3 := with_files (fun _ => disk_sealed) fresh in
  stopped (this w1) = false /\
  watchAgent homeTeamDir "agent1" w1 = (Throw ENOENT, w1) /\
  watchAgent homeTeamDir "agent1" w2 = (Throw ENOTDIR, w2) /\
  watchAgent homeTeamDir "agent1" w3 = (Throw EACCES, w3).
Proof.
  intros w1 w2 w3. split; [reflexivity|].
  destruct (watchAgent_throws_without_the_directory homeTeamDir "agent1" w1 eq_refl)
    as (_ & _ & H1).
  destruct (watchAgent_throws_without_the_directory homeTeamDir "agent1" w2 eq_refl)
    as (_ & _ & H2).
  destruct (watchAgent_throws_without_the_directory homeTeamDir "agent1" w3 eq_refl)
    as (_ & _ & H3).
  split; [exact (H1 eq_refl)|]. split; [exact (H2 eq_refl)|exact (H3 eq_refl)].
Defined.

End DiskProps.

(** * Facts about the life of a watcher *)
Module LifecycleFacts.
Import Fs JsString Watcher Shapes Protocol WatcherFacts PathFacts FilesFacts FrameFacts.
Local Open Scope nat_scope.
Local Open Scope M_scope.

(** Storing the offset that is stored already changes nothing. *)
Lemma put_offset_same p n w :
  fileOffsets (this w) !! p = Some n -> put_offset p n w = w.
Proof.
  destruct w as [f wa h c d [tn ws fo st] tr]. cbn. intros H.
  unfold put_offset, with_this, set_fileOffsets. cbn. by rewrite insert_id.
Qed.

(** The loop of [stop] leaves alone a watcher that is not in the map. *)
Lemma close_all_other (entries : list (string * nat)) :
  forall (h : list FSWatcher) i,
  i ∉ map snd entries ->
  foldl (fun h entry => alter close_watcher (snd entry) h) h entries !! i = h !! i.
Proof.
  induction entries as [|[a x] entries IH]; intros h i Hi; cbn [foldl map snd] in *;
    [done|].
  apply not_elem_of_cons in Hi as [Hne Hi].
  rewrite (IH _ _ Hi). by apply list_lookup_alter_ne.
Qed.

Section Methods.
Variable teamDir : string -> path.

(** [watchAgent] when the file can be there and the watch is
    granted. *)
Lemma watchAgent_granted agent w :
  stopped (this w) = false ->
  let p := statusLineLogPath teamDir (teamName (this w)) agent in
  creatable (files w) p -> watchable w p = true ->
  exists t n,
    (existsSync (files w) p = true -> t = files w) /\
    watchAgent teamDir agent w =
      (Ret tt,
       put_outputs [LogDebug (MsgWatching agent p)]
         (put_watcher agent (length (heap w))
            (open_watcher agent p (put_offset p n (with_files (fun _ => t) w))))).
Proof.
  intros Hs p Hc Hw. rewrite (watchAgent_running teamDir agent w Hs). fold p.
  destruct (create_if_missing _ _ Hc) as (t & -> & Hex & Hsame). cbv zeta.
  rewrite Hex, Hw. cbn [negb]. by eexists t, _.
Qed.

(** [watchAgent] when the file can be there and the watch is
    refused. *)
Lemma watchAgent_refused agent w :
  stopped (this w) = false ->
  let p := statusLineLogPath teamDir (teamName (this w)) agent in
  creatable (files w) p -> watchable w p = false ->
  exists t n,
    watchAgent teamDir agent w =
      (Ret tt,
       put_outputs [LogError (MsgWatchFailed agent ENOSPC)]
         (put_offset p n (with_files (fun _ => t) w))).
Proof.
  intros Hs p Hc Hw. rewrite (watchAgent_running teamDir agent w Hs). fold p.
  destruct (create_if_missing _ _ Hc) as (t & -> & Hex & Hsame). cbv zeta.
  rewrite Hex, Hw. cbn [negb]. by eexists t, _.
Qed.

End Methods.

End LifecycleFacts.

(** * The life of a watcher *)
Module LifecycleProps.
Import Fs JsString Watcher Shapes Protocol WatcherFacts PathFacts FilesFacts FrameFacts.
Import LifecycleFacts Utf8Facts.
Import Example.
Local Open Scope nat_scope.
Local Open Scope M_scope.

Section Methods.
Variable teamDir : string -> path.

(** X11. Registering a name that has an open watcher (held under
    that name only) stores a new watcher under the name and leaves the
    old one open with nothing referring to it: neither [unwatchAgent]
    for the name nor [stop] closes it afterwards. *)
Theorem reregistration_leaks_the_watcher agent w h fw :
  stopped (this w) = false ->
  let p := statusLineLogPath teamDir (teamName (this w)) agent in
  creatable (files w) p -> watchable w p = true ->
  watchers (this w) !! agent = Some h ->
  heap w !! h = Some fw -> w_open fw = true ->
  (forall a, watchers (this w) !! a = Some h -> a = agent) ->
  let w1 := snd (watchAgent teamDir agent w) in
  watchers (this w1) !! agent = Some (length (heap w)) /\
  heap w1 !! h = Some fw /\
  (forall a, watchers (this w1) !! a <> Some h) /\
  ~ all_held w1 /\
  heap (snd (unwatchAgent teamDir agent w1)) !! h = Some fw /\
  heap (snd (stop w1)) !! h = Some fw.
Proof.
  intros Hs p Hc Hw Hh Hfw Ho Honly w1. subst w1.
  destruct (watchAgent_granted teamDir agent w Hs Hc Hw) as (t & n & _ & ->).
  fold p. cbn [snd].
  pose proof (lookup_lt_Some _ _ _ Hfw) as Hlt.
  set (w1 := put_outputs _ _).
  assert (watchers (this w1) = <[agent := length (heap w)]> (watchers (this w))) as Hws
    by reflexivity.
  assert (heap w1 = heap w ++ [{| w_agent := agent; w_path := p; w_open := true |}])
    as Hheap by reflexivity.
  assert (heap w1 !! h = Some fw) as Hfw1 by by rewrite Hheap, lookup_app_l.
  assert (forall a, watchers (this w1) !! a <> Some h) as Hnone.
  { intros a Ha. rewrite Hws in Ha. destruct (decide (a = agent)) as [->|Hne].
    - rewrite lookup_insert_eq in Ha. injection Ha as E. lia.
    - rewrite lookup_insert_ne in Ha by done. by apply Hne, Honly. }
  split; [by rewrite Hws, lookup_insert_eq|]. split; [done|]. split; [done|].
  split; [|split].
  - intros Hheld. destruct (Hheld h fw Hfw1 Ho) as [a Ha]. by apply (Hnone a).
  - rewrite unwatchAgent_run. cbn [snd]. rewrite Hws, lookup_insert_eq.
    cbn [heap drop_offset drop_watcher shut_watcher with_this with_heap].
    rewrite list_lookup_alter_ne by lia. done.
  - rewrite stop_run. cbn [snd heap with_this with_heap].
    rewrite close_all_other; [done|].
    intros Hin. apply list_elem_of_fmap in Hin as ([a x] & Hx & Hin).
    cbn [snd] in Hx. subst x. apply elem_of_map_to_list in Hin. by apply (Hnone a).
Qed.

(** X12. Registration followed by [unwatchAgent] is a round trip for
    the instance: for a name that had neither watcher nor offset, both
    maps and the flag are as before, and the watcher that was created
    is closed (no watcher is open that was not open before). *)
Theorem watch_then_unwatch_restores_the_instance agent w :
  stopped (this w) = false ->
  let p := statusLineLogPath teamDir (teamName (this w)) agent in
  creatable (files w) p ->
  watchers (this w) !! agent = None ->
  fileOffsets (this w) !! p = None ->
  let w' := snd ((watchAgent teamDir agent ;; unwatchAgent teamDir agent) w) in
  fst ((watchAgent teamDir agent ;; unwatchAgent teamDir agent) w) = Ret tt /\
  this w' = this w /\
  (forall h fw, heap w' !! h = Some fw -> w_open fw = true -> heap w !! h = Some fw).
Proof.
  intros Hs p Hc Hnw Hno w'. subst w'. unfold bind.
  destruct (watchable w p) eqn:Hw.
  - destruct (watchAgent_granted teamDir agent w Hs Hc Hw) as (t & n & _ & ->).
    fold p. rewrite unwatchAgent_run. cbn [fst snd].
    cbn [this put_outputs with_trace put_watcher with_this open_watcher with_heap
           put_offset with_files teamName set_watchers set_fileOffsets watchers].
    rewrite lookup_insert_eq. fold p. split; [done|]. split.
    + destruct w as [f wa hp c d [tn ws fo st] tr]. cbn in *.
      unfold drop_offset, drop_watcher, shut_watcher, with_this, with_heap,
        set_watchers, set_fileOffsets. cbn.
      by rewrite !delete_insert_id.
    + intros h fw Hl Ho.
      cbn [heap drop_offset drop_watcher shut_watcher with_this with_heap
             put_outputs with_trace put_watcher open_watcher put_offset
             with_files] in Hl.
      destruct (decide (h = length (heap w))) as [->|Hne].
      * rewrite list_lookup_alter_eq in Hl.
        rewrite lookup_app_r, Nat.sub_diag in Hl by lia. cbn in Hl.
        injection Hl as <-. done.
      * rewrite list_lookup_alter_ne in Hl by done.
        apply lookup_app_Some in Hl as [Hl|[Hge Hl]]; [done|].
        apply list_lookup_singleton_Some in Hl as [Hz _]. lia.
  - destruct (watchAgent_refused teamDir agent w Hs Hc Hw) as (t & n & ->).
    fold p. rewrite unwatchAgent_run. cbn [fst snd].
    cbn [this put_outputs with_trace put_watcher with_this open_watcher with_heap
           put_offset with_files teamName set_watchers set_fileOffsets watchers].
    rewrite Hnw. fold p. split; [done|]. split.
    + destruct w as [f wa hp c d [tn ws fo st] tr]. cbn in *.
      unfold drop_offset, with_this, set_fileOffsets. cbn.
      by rewrite delete_insert_id.
    + intros h fw Hl Ho. exact Hl.
Qed.

(** X13. Once [unwatchAgent] has run for a name, the watcher that was
    stored under it is silent: whatever happens to the files, a
    notification delivered to it changes nothing and emits nothing. *)
Theorem unwatched_agent_is_silent agent w h :
  watchers (this w) !! agent = Some h ->
  let w1 := snd (unwatchAgent teamDir agent w) in
  forall w2 ev, heap w2 = heap w1 -> notify h ev w2 = (Ret tt, w2).
Proof.
  intros Hh w1 w2 ev Hheap. apply notify_closed. intros fw Hl.
  rewrite Hheap in Hl. subst w1. rewrite unwatchAgent_run in Hl. cbn [snd] in Hl.
  rewrite Hh in Hl.
  cbn [heap drop_offset drop_watcher shut_watcher with_this with_heap] in Hl.
  rewrite list_lookup_alter_eq in Hl. destruct (heap w !! h); [|done].
  by injection Hl as <-.
Qed.

(** X14. [stop] twice is [stop] once: the second call returns and
    changes nothing. *)
Theorem stop_idempotent w :
  stop (snd (stop w)) = (Ret tt, snd (stop w)) /\
  (stop ;; stop) w = stop w.
Proof.
  assert (stop (snd (stop w)) = (Ret tt, snd (stop w))) as H.
  { rewrite (stop_run (snd (stop w))). rewrite stop_run. cbn [snd].
    cbn [this with_this with_heap watchers]. rewrite map_to_list_empty.
    cbn [foldl]. reflexivity. }
  split; [exact H|]. unfold bind at 1.
  destruct (stop w) as [[[]|e] w1] eqn:E.
  - cbn [snd] in H. exact H.
  - rewrite stop_run in E. done.
Qed.

End Methods.

(** X15. A change notification never touches the files, the
    watchers, the map of watchers, the flag or the offset of any file
    other than the watcher's own; it returns, and all it does besides
    storing that one offset is to append outputs, reading the clock
    once per update event. *)
Theorem notification_frame h ev w :
  let w' := snd (notify h ev w) in
  fst (notify h ev w) = Ret tt /\
  files w' = files w /\ heap w' = heap w /\
  watchers (this w') = watchers (this w) /\
  stopped (this w') = stopped (this w) /\
  teamName (this w') = teamName (this w) /\
  (forall q, (forall fw, heap w !! h = Some fw -> w_path fw <> q) ->
     fileOffsets (this w') !! q = fileOffsets (this w) !! q) /\
  exists os, trace w' = trace w ++ os /\
             dates w' = length (updates os) + dates w.
Proof.
  intros w'. subst w'. split; [apply notify_returns|].
  destruct (notify_cases h ev w) as [(fw & Hl & _ & _ & Hn) | Hn]; rewrite Hn.
  - destruct (readNewLines_frame (w_agent fw) (w_path fw) w)
      as (Hf & Hh & _ & _ & Hws & Hs & Ht & Ho & os & Htr & Hd & _).
    repeat (split; [done|]). split.
    + intros q Hq. apply Ho. intros ->. by apply (Hq fw).
    + by exists os.
  - cbn [snd]. do 6 (split; [done|]).
    exists []. by rewrite app_nil_r.
Qed.

(** X16. A second notification while the file is unchanged does
    nothing: after a read that succeeded, reading again returns the
    same world, so no event is emitted twice. *)
Theorem repeated_notification_is_silent h w fw bytes :
  heap w !! h = Some fw ->
  readFileSync (files w) (w_path fw) = inr bytes ->
  let w1 := snd (notify h Change w) in
  notify h Change w1 = (Ret tt, w1).
Proof.
  intros Hl Hr w1. subst w1.
  destruct (w_open fw) eqn:Ho.
  2:{ assert (forall fw', heap w !! h = Some fw' -> w_open fw' = false) as Hc
        by (intros fw' Hl'; congruence).
      rewrite (notify_closed h Change w Hc). cbn [snd]. by apply notify_closed. }
  rewrite (notify_open h Change w fw Hl Ho). cbn [listener].
  destruct (readNewLines_frame (w_agent fw) (w_path fw) w)
    as (Hf & Hh & _ & _ & _ & _ & _ & _ & os & _ & _ & _ & Hread).
  destruct (Hread bytes Hr) as [_ Hoff].
  set (w1 := snd (readNewLines (w_agent fw) (w_path fw) w)) in *.
  assert (heap w1 !! h = Some fw) as Hl1 by by rewrite Hh.
  rewrite (notify_open h Change w1 fw Hl1 Ho). cbn [listener].
  assert (readFileSync (files w1) (w_path fw) = inr bytes) as Hr1 by by rewrite Hf.
  rewrite (readNewLines_read _ _ _ _ Hr1). cbv zeta. rewrite Hoff. cbn [default from_option id].
  unfold slice. rewrite drop_all, chunkOutputs_nil. cbn [updates length].
  by rewrite put_outputs_nil, take_dates_0, put_offset_same.
Qed.

(** X17. When the log has been cut down below the stored offset,
    the read finds nothing new: it emits and logs nothing, and lowers
    the offset to the length of what is there. *)
Theorem truncated_log_yields_nothing agent p w bytes off :
  readFileSync (files w) p = inr bytes ->
  fileOffsets (this w) !! p = Some off ->
  length (Utf8.decode bytes) <= off ->
  readNewLines agent p w = (Ret tt, put_offset p (length (Utf8.decode bytes)) w).
Proof.
  intros Hr Hoff Hle. rewrite (readNewLines_read _ _ _ _ Hr). cbv zeta.
  rewrite Hoff. cbn [default from_option id]. unfold slice. rewrite drop_ge by done.
  rewrite chunkOutputs_nil. cbn [updates length].
  by rewrite put_outputs_nil, take_dates_0.
Qed.

(** X18. While the file only grows, the offset stored by one read is
    never above the offset stored by the next, and neither is above
    the file's length in bytes. *)
Theorem offset_grows_with_the_file agent p w bytes w2 extra :
  readFileSync (files w) p = inr bytes ->
  let w1 := snd (readNewLines agent p w) in
  this w2 = this w1 ->
  readFileSync (files w2) p = inr (bytes ++ extra) ->
  let w3 := snd (readNewLines agent p w2) in
  exists n1 n3,
    fileOffsets (this w1) !! p = Some n1 /\
    fileOffsets (this w3) !! p = Some n3 /\
    n1 <= n3 /\ n1 <= length bytes /\ n3 <= length (bytes ++ extra).
Proof.
  intros Hr w1 Hthis Hr2 w3. subst w1 w3.
  destruct (readNewLines_frame agent p w)
    as (_ & _ & _ & _ & _ & _ & _ & _ & os & _ & _ & _ & Hread).
  destruct (Hread bytes Hr) as [_ Hoff].
  destruct (readNewLines_frame agent p w2)
    as (_ & _ & _ & _ & _ & _ & _ & _ & os2 & _ & _ & _ & Hread2).
  destruct (Hread2 _ Hr2) as [_ Hoff2].
  exists (length (Utf8.decode bytes)), (length (Utf8.decode (bytes ++ extra))).
  split; [done|]. split; [done|]. split; [apply decode_length_app|].
  split; apply decode_length.
Qed.

(** A second registration of [agent1]. *)
Lemma reregistration_leaks_the_watcher_witness :
  let w := after (watchAgent homeTeamDir "agent1") fresh in
  let w1 := snd (watchAgent homeTeamDir "agent1" w) in
  stopped (this w) = false /\
  watchers (this w) !! "agent1"%string = Some 0 /\
  heap (snd (stop w1)) !! 0 =
    Some {| w_agent := "agent1"; w_path := log; w_open := true |}.
Proof.
  intros w w1. split; [reflexivity|]. split; [by vm_compute|].
  assert (forall a, watchers (this w) !! a = Some 0 -> a = "agent1"%string) as Honly.
  { intros a. change (watchers (this w)) with (<["agent1"%string := 0]> (∅ : gmap string nat)).
    intros Ha. apply lookup_insert_Some in Ha as [[<- _]|[_ Ha]]; [done|].
    by rewrite lookup_empty in Ha. }
  destruct (reregistration_leaks_the_watcher homeTeamDir "agent1" w 0
              {| w_agent := "agent1"; w_path := log; w_open := true |}
              eq_refl) as (_ & _ & _ & _ & _ & H); try (by vm_compute); try done.
  left. by vm_compute.
Defined.

(** Registration and unregistration of [agent1] on a new instance. *)
Lemma watch_then_unwatch_restores_the_instance_witness :
  stopped (this fresh) = false /\
  this (snd ((watchAgent homeTeamDir "agent1" ;; unwatchAgent homeTeamDir "agent1") fresh))
    = this fresh.
Proof.
  split; [reflexivity|].
  destruct (watch_then_unwatch_restores_the_instance homeTeamDir "agent1" fresh eq_refl)
    as (_ & H & _); try (by vm_compute); try done.
  right. by vm_compute.
Defined.

(** The watcher of [agent1] after [unwatchAgent]. *)
Lemma unwatched_agent_is_silent_witness :
  let w := after (watchAgent homeTeamDir "agent1") fresh in
  let w1 := snd (unwatchAgent homeTeamDir "agent1" w) in
  watchers (this w) !! "agent1"%string = Some 0 /\
  notify 0 Change (appendFile log (line "[1]") w1)
    = (Ret tt, appendFile log (line "[1]") w1).
Proof.
  intros w w1. split; [by vm_compute|].
  apply (unwatched_agent_is_silent homeTeamDir "agent1" w 0); by vm_compute.
Defined.

(** Two notifications after one line was appended. *)
Lemma repeated_notification_is_silent_witness :
  let w := appendFile log (line "[1]") (after (watchAgent homeTeamDir "agent1") fresh) in
  let w1 := snd (notify 0 Change w) in
  readFileSync (files w) log = inr (line "[1]") /\
  notify 0 Change w1 = (Ret tt, w1).
Proof.
  intros w w1. split; [by vm_compute|].
  apply (repeated_notification_is_silent 0 w
           {| w_agent := "agent1"; w_path := log; w_open := true |} (line "[1]"));
    by vm_compute.
Defined.

(** The log held two lines at registration and holds one now. *)
Lemma truncated_log_yields_nothing_witness :
  let w0 := after (watchAgent homeTeamDir "agent1") (holding (line "[1]" ++ line "[2]") true) in
  let w := with_files (fun t => <[log := File (line "[3]") true]> t) w0 in
  readFileSync (files w) log = inr (line "[3]") /\
  fileOffsets (this w) !! log = Some 8 /\
  readNewLines "agent1" log w
    = (Ret tt, put_offset log (length (Utf8.decode (line "[3]"))) w).
Proof.
  intros w0 w.
  assert (readFileSync (files w) log = inr (line "[3]")) as Hr
    by (vm_compute; reflexivity).
  assert (fileOffsets (this w) !! log = Some 8) as Hoff
    by (vm_compute; reflexivity).
  assert (length (Utf8.decode (line "[3]")) <= 8) as Hle
    by (apply Nat.leb_le; vm_compute; reflexivity).
  split; [exact Hr|]. split; [exact Hoff|].
  exact (truncated_log_yields_nothing "agent1" log w (line "[3]") 8 Hr Hoff Hle).
Defined.

(** Two reads, a line appended in between. *)
Lemma offset_grows_with_the_file_witness :
  let w := holding (line "[1]") true in
  let w1 := snd (readNewLines "agent1" log w) in
  let w2 := appendFile log (line "[2]") w1 in
  readFileSync (files w) log = inr (line "[1]") /\
  this w2 = this w1 /\
  readFileSync (files w2) log = inr (line "[1]" ++ line "[2]") /\
  exists n1 n3,
    fileOffsets (this w1) !! log = Some n1 /\
    fileOffsets (this (snd (readNewLines "agent1" log w2))) !! log = Some n3 /\
    n1 <= n3.
Proof.
  intros w w1 w2.
  assert (readFileSync (files w) log = inr (line "[1]")) as Hr by by vm_compute.
  assert (this w2 = this w1) as Hthis by apply this_appendFile.
  assert (readFileSync (files w2) log = inr (line "[1]" ++ line "[2]")) as Hr2
    by by vm_compute.
  split; [done|]. split; [done|]. split; [done|].
  destruct (offset_grows_with_the_file "agent1" log w (line "[1]") w2 (line "[2]")
              Hr Hthis Hr2) as (n1 & n3 & H1 & H3 & Hle & _).
  exists n1, n3. split; [exact H1|]. split; [exact H3|exact Hle].
Defined.

End LifecycleProps.

(** * Facts about the events of a batch *)
Module BatchFacts.
Import Fs JsString Watcher Shapes WatcherFacts JsStringFacts JsonFacts.
Local Open Scope nat_scope.

(** The update events of one line: one for a line that parses. *)
Lemma updates_lineOutputs agent time line :
  updates (lineOutputs agent time line) =
    match Json.parse line with
    | Some v => [{| agentName := agent; data := v; timestamp := time |}]
    | None => []
    end.
Proof.
  destruct (Json.parse line) as [v|] eqn:Hp.
  - by rewrite (lineOutputs_parsed _ _ _ _ Hp).
  - by apply updates_lineOutputs_malformed.
Qed.

Lemma updates_linesOutputs agent clock lines : forall n,
  updates (linesOutputs agent clock n lines) = eventsOf agent clock n (parsed lines).
Proof.
  induction lines as [|line lines IH]; intros n; [done|].
  cbn [linesOutputs]. cbv zeta. rewrite updates_app, IH, updates_lineOutputs.
  change (parsed (line :: lines))
    with (match Json.parse line with
          | Some v => v :: parsed lines
          | None => parsed lines
          end).
  destruct (Json.parse line) as [v|]; cbn [length app eventsOf Nat.add]; done.
Qed.

Lemma updates_chunkOutputs agent clock n chunk :
  updates (chunkOutputs agent clock n chunk) =
    eventsOf agent clock n (parsed (split_lf (trim chunk))).
Proof.
  unfold chunkOutputs. destruct (decide (trim chunk = [])) as [->|Hne].
  - change (parsed (split_lf []))
      with (match Json.parse [] with Some v => [v] | None => [] end).
    by rewrite parse_empty.
  - apply updates_linesOutputs.
Qed.

Lemma length_eventsOf agent clock vs : forall n,
  length (eventsOf agent clock n vs) = length vs.
Proof. induction vs as [|v vs IH]; intros n; [done|]. cbn [eventsOf length]. by rewrite IH. Qed.

Lemma length_parsed lines : length (parsed lines) <= length lines.
Proof.
  induction lines as [|line lines IH]; [done|].
  change (parsed (line :: lines))
    with (match Json.parse line with
          | Some v => v :: parsed lines
          | None => parsed lines
          end).
  destruct (Json.parse line); cbn [length]; lia.
Qed.

(** A line feed is looked for unit by unit. *)
Lemma single_line_check s :
  forallb (fun c => negb (c =? LF)%N) s = true -> single_line s.
Proof.
  unfold single_line. induction s as [|c s IH]; cbn [forallb].
  - intros _. apply not_elem_of_nil.
  - intros H. apply andb_prop in H as [Hc Hs]. apply not_elem_of_cons. split.
    + intros <-. by rewrite N.eqb_refl in Hc.
    + by apply IH.
Qed.

Lemma complete_lines_cons l ls :
  complete_lines (l :: ls) = (l ++ [LF]) ++ complete_lines ls.
Proof. reflexivity. Qed.

Lemma blank_LF : blank [LF].
Proof. by repeat constructor. Qed.

(** The lines of a chunk of well-formed lines, trimmed at the end. *)
Lemma parsed_trimEnd_complete ls : forall vs,
  ls <> [] -> Forall2 well_formed ls vs ->
  trimEnd (complete_lines ls) <> [] /\
  parsed (split_lf (trimEnd (complete_lines ls))) = vs.
Proof.
  induction ls as [|l ls IH]; intros vs Hne Hall; [done|].
  apply Forall2_cons_inv_l in Hall as (v & vs' & [Hl Hp] & Hall & ->).
  rewrite complete_lines_cons. destruct ls as [|l' ls].
  - apply Forall2_nil_inv_l in Hall as ->. unfold complete_lines at 1 2.
    cbn [flat_map]. rewrite !app_nil_r, !(trimEnd_blank _ _ blank_LF).
    split; [by apply (parse_trimEnd_nonempty _ v)|].
    rewrite split_lf_line by by apply single_line_trimEnd.
    change (parsed [trimEnd l])
      with (match Json.parse (trimEnd l) with Some v => [v] | None => [] end).
    by rewrite (parse_trimEnd _ _ Hp).
  - destruct (IH vs' ltac:(done) Hall) as [Hne' IH'].
    rewrite trimEnd_app by done. split.
    + rewrite <- app_assoc. intros E. by apply app_eq_nil in E as [_ E].
    + rewrite <- app_assoc. cbn [app]. rewrite split_lf_app by done.
      change (parsed (l :: split_lf (trimEnd (complete_lines (l' :: ls)))))
        with (match Json.parse l with
              | Some v => v :: parsed (split_lf (trimEnd (complete_lines (l' :: ls))))
              | None => parsed (split_lf (trimEnd (complete_lines (l' :: ls))))
              end).
      by rewrite Hp, IH'.
Qed.

(** The lines of a chunk of well-formed lines, trimmed. *)
Lemma parsed_trim_complete ls vs :
  Forall2 well_formed ls vs ->
  parsed (split_lf (trim (complete_lines ls))) = vs.
Proof.
  intros Hall. destruct ls as [|l ls].
  { apply Forall2_nil_inv_l in Hall as ->.
    change (match Json.parse [] with Some v => [v] | None => [] end = []).
    by rewrite parse_empty. }
  apply Forall2_cons_inv_l in Hall as (v & vs' & [Hl Hp] & Hall & ->).
  unfold trim. rewrite complete_lines_cons, <- app_assoc.
  rewrite trimStart_app by by apply (parse_trimStart_nonempty _ v).
  assert (Forall2 well_formed (trimStart l :: ls) (v :: vs')) as Hall'.
  { constructor; [|done]. split; [by apply single_line_trimStart|].
    by apply parse_trimStart. }
  rewrite app_assoc.
  change ((trimStart l ++ [LF]) ++ complete_lines ls)
    with (complete_lines (trimStart l :: ls)).
  by apply parsed_trimEnd_complete.
Qed.

End BatchFacts.

(** * The events of a batch *)
Module BatchProps.
Import Fs JsString Watcher Shapes WatcherFacts JsStringFacts JsonFacts BatchFacts.
Import FrameFacts.
Import Example.
Local Open Scope nat_scope.

(** X19. The update events of a read are exactly the payloads of
    the lines of the trimmed new content that parse, in the order of
    the lines; every one carries the name of the agent and the next
    reading of the clock, and the clock is read once per event. *)
Theorem events_are_the_lines_that_parse agent p w bytes :
  readFileSync (files w) p = inr bytes ->
  let newContent :=
    slice (Utf8.decode bytes) (default 0 (fileOffsets (this w) !! p)) in
  let payloads := parsed (split_lf (trim newContent)) in
  let w' := snd (readNewLines agent p w) in
  updates (trace w') =
    updates (trace w) ++ eventsOf agent (clock w) (dates w) payloads /\
  dates w' = length payloads + dates w /\
  length payloads <= length (split_lf (trim newContent)).
Proof.
  intros Hr newContent payloads w'. subst w'.
  rewrite (readNewLines_read _ _ _ _ Hr). cbv zeta. cbn [snd].
  fold newContent.
  cbn [trace dates put_outputs with_trace take_dates with_dates put_offset with_this].
  rewrite updates_app, !updates_chunkOutputs, length_eventsOf. fold payloads.
  split; [done|]. split; [done|]. apply length_parsed.
Qed.

(** X20. When the new content is a sequence of complete lines, each
    one well-formed JSON followed by a line feed, the read emits one
    update event per line, in order, with the payload of the line. *)
Theorem every_complete_line_gives_one_event agent p w bytes ls vs :
  readFileSync (files w) p = inr bytes ->
  slice (Utf8.decode bytes) (default 0 (fileOffsets (this w) !! p))
    = complete_lines ls ->
  Forall2 (fun l v => single_line l /\ Json.parse l = Some v) ls vs ->
  let w' := snd (readNewLines agent p w) in
  updates (trace w') = updates (trace w) ++ eventsOf agent (clock w) (dates w) vs /\
  length (updates (trace w')) = length (updates (trace w)) + length ls.
Proof.
  intros Hr Hnew Hall w'. subst w'.
  rewrite (readNewLines_read _ _ _ _ Hr). cbv zeta. cbn [snd]. rewrite Hnew.
  cbn [trace put_outputs with_trace take_dates with_dates put_offset with_this].
  rewrite updates_app, !updates_chunkOutputs.
  rewrite (parsed_trim_complete ls vs Hall).
  split; [done|]. rewrite length_app, length_eventsOf.
  by rewrite (Forall2_length _ _ _ Hall).
Qed.

(** A log of two lines, read from the start. *)
Lemma events_are_the_lines_that_parse_witness :
  let w := holding (line "[1]" ++ line "oops") true in
  readFileSync (files w) log = inr (line "[1]" ++ line "oops") /\
  updates (trace (snd (readNewLines "agent1" log w))) =
    [{| agentName := "agent1"; data := Json.JArray [Json.JNumber (of_string "1")];
        timestamp := 1000 |}].
Proof.
  intros w.
  assert (readFileSync (files w) log = inr (line "[1]" ++ line "oops")) as Hr
    by by vm_compute.
  split; [done|].
  destruct (events_are_the_lines_that_parse "agent1" log w _ Hr) as (-> & _).
  by vm_compute.
Defined.

(** A log of three lines, read from the start. *)
Lemma every_complete_line_gives_one_event_witness :
  let w := holding (line "[1]" ++ line "[2]" ++ line "[3]") true in
  readFileSync (files w) log = inr (line "[1]" ++ line "[2]" ++ line "[3]") /\
  length (updates (trace (snd (readNewLines "agent1" log w)))) = 3.
Proof.
  intros w.
  assert (readFileSync (files w) log = inr (line "[1]" ++ line "[2]" ++ line "[3]"))
    as Hr by by vm_compute.
  split; [done|].
  destruct (every_complete_line_gives_one_event "agent1" log w _
              [of_string "[1]"; of_string "[2]"; of_string "[3]"]
              [Json.JArray [Json.JNumber (of_string "1")];
               Json.JArray [Json.JNumber (of_string "2")];
               Json.JArray [Json.JNumber (of_string "3")]] Hr) as (_ & ->).
  - by vm_compute.
  - repeat (constructor; [split; [by apply single_line_check|by vm_compute]|]).
    constructor.
  - reflexivity.
Defined.

End BatchProps.

(** * Facts about sequences of calls *)
Module ProtocolFacts.
Import Fs JsString Watcher Shapes Protocol WatcherFacts PathFacts FilesFacts FrameFacts.
Import LifecycleFacts.
Local Open Scope nat_scope.
Local Open Scope M_scope.

Lemma settled_closed w :
  settled w -> stopped (this w) = true ->
  forall h fw, heap w !! h = Some fw -> w_open fw = false.
Proof.
  intros [Hheld Hs] Hst h fw Hl. destruct (Hs Hst) as [Hws _].
  destruct (w_open fw) eqn:Ho; [|done].
  destruct (Hheld h fw Hl Ho) as [a Ha]. by rewrite Hws, lookup_empty in Ha.
Qed.

(** The loop of [stop] keeps every watcher in its place, with its
    listener, and opens none. *)
Lemma close_all_lookup (entries : list (string * nat)) :
  forall (h : list FSWatcher) i fw,
  h !! i = Some fw ->
  exists fw',
    foldl (fun h entry => alter close_watcher (snd entry) h) h entries !! i = Some fw' /\
    w_agent fw' = w_agent fw /\ w_path fw' = w_path fw /\
    (w_open fw' = true -> w_open fw = true).
Proof.
  induction entries as [|[a x] entries IH]; intros h i fw Hl; cbn [foldl snd].
  - by exists fw.
  - destruct (decide (i = x)) as [->|Hne].
    + destruct (IH (alter close_watcher x h) x (close_watcher fw))
        as (fw' & Hl' & Ha & Hp & Ho).
      { by rewrite list_lookup_alter_eq, Hl. }
      exists fw'. split; [done|]. split; [done|]. split; [done|].
      intros Ho'. by apply Ho in Ho'.
    + apply IH. by rewrite list_lookup_alter_ne.
Qed.

Lemma heap_notify h ev w : heap (snd (notify h ev w)) = heap w.
Proof.
  destruct (notify_cases h ev w) as [(fw & _ & _ & _ & Hn) | Hn]; rewrite Hn; [|done].
  apply readNewLines_frame.
Qed.

Section Methods.
Variable teamDir : string -> path.

(** What [watchAgent] leaves alone. *)
Lemma watchAgent_frame agent w :
  let p := statusLineLogPath teamDir (teamName (this w)) agent in
  let w' := snd (watchAgent teamDir agent w) in
  (forall a, a <> agent -> watchers (this w') !! a = watchers (this w) !! a) /\
  (forall q, q <> p -> fileOffsets (this w') !! q = fileOffsets (this w) !! q) /\
  (forall q, q <> p -> files w' !! q = files w !! q) /\
  (forall h fw, heap w !! h = Some fw -> heap w' !! h = Some fw) /\
  stopped (this w') = stopped (this w) /\
  teamName (this w') = teamName (this w) /\
  exists os, trace w' = trace w ++ os /\ updates os = [].
Proof.
  intros p w'. subst w'. destruct (stopped (this w)) eqn:Hs.
  { rewrite (watchAgent_stopped teamDir agent w Hs). cbn [snd].
    repeat (split; [done|]). exists []. by rewrite app_nil_r. }
  rewrite (watchAgent_running teamDir agent w Hs). fold p. cbv zeta.
  assert (forall t, (if existsSync (files w) p then inr (files w)
                     else writeFileSync (files w) p []) = inr t ->
                    forall q, q <> p -> t !! q = files w !! q) as Hfiles.
  { intros t Ht q Hq. destruct (existsSync (files w) p) eqn:Hex; [congruence|].
    rewrite (create_outcome _ _ Hex) in Ht.
    destruct (lookup_node (files w) (dirname p)) as [[c r| |e']|]; try done.
    injection Ht as <-. by rewrite lookup_insert_ne. }
  destruct (if existsSync (files w) p then _ else _) as [e|t] eqn:Ht.
  { cbn [snd]. repeat (split; [done|]). exists []. by rewrite app_nil_r. }
  specialize (Hfiles t eq_refl). cbn [snd].
  destruct (negb (existsSync t p)); [|destruct (negb (watchable w p))];
    cbn [this files heap trace put_outputs with_trace put_watcher with_this
           open_watcher with_heap put_offset with_files watchers fileOffsets
           set_watchers set_fileOffsets stopped teamName].
  - split; [done|]. split; [by intros q Hq; rewrite lookup_insert_ne|].
    split; [done|]. split; [done|]. split; [done|]. split; [done|]. by eexists.
  - split; [done|]. split; [by intros q Hq; rewrite lookup_insert_ne|].
    split; [done|]. split; [done|]. split; [done|]. split; [done|]. by eexists.
  - split; [by intros a Ha; rewrite lookup_insert_ne|].
    split; [by intros q Hq; rewrite lookup_insert_ne|].
    split; [done|]. split.
    + intros h fw Hl. rewrite lookup_app_l; [done|]. by apply lookup_lt_Some in Hl.
    + split; [done|]. split; [done|]. by eexists.
Qed.

(** [watchAgent] creates at most one watcher, an open one. *)
Lemma heap_watchAgent agent w :
  let p := statusLineLogPath teamDir (teamName (this w)) agent in
  heap (snd (watchAgent teamDir agent w)) = heap w \/
  heap (snd (watchAgent teamDir agent w)) =
    heap w ++ [{| w_agent := agent; w_path := p; w_open := true |}].
Proof.
  intros p. destruct (stopped (this w)) eqn:Hs.
  { rewrite (watchAgent_stopped teamDir agent w Hs). by left. }
  rewrite (watchAgent_running teamDir agent w Hs). fold p. cbv zeta.
  destruct (if existsSync (files w) p then _ else _) as [e|t]; [by left|].
  cbn [snd].
  destruct (negb (existsSync t p)); [by left|].
  destruct (negb (watchable w p)); [by left|by right].
Qed.

Lemma heap_ensureDir w : heap (snd (ensureDir teamDir w)) = heap w.
Proof.
  rewrite ensureDir_run. destruct (existsSync _ _); [done|].
  by destruct (mkdirSync_recursive _ _).
Qed.

Lemma this_ensureDir w : this (snd (ensureDir teamDir w)) = this w.
Proof.
  rewrite ensureDir_run. destruct (existsSync _ _); [done|].
  by destruct (mkdirSync_recursive _ _).
Qed.

Lemma trace_ensureDir w : trace (snd (ensureDir teamDir w)) = trace w.
Proof.
  rewrite ensureDir_run. destruct (existsSync _ _); [done|].
  by destruct (mkdirSync_recursive _ _).
Qed.

Lemma trace_unwatchAgent agent w : trace (snd (unwatchAgent teamDir agent w)) = trace w.
Proof. rewrite unwatchAgent_run. cbn [snd]. by destruct (watchers (this w) !! agent). Qed.

Lemma trace_stop w : trace (snd (stop w)) = trace w.
Proof. by rewrite stop_run. Qed.

(** A stopped instance with empty maps is left as it is by
    [unwatchAgent] and by [stop]. *)
Lemma unwatchAgent_settled agent w :
  watchers (this w) = ∅ -> fileOffsets (this w) = ∅ ->
  unwatchAgent teamDir agent w = (Ret tt, w).
Proof.
  intros Hws Hfo. rewrite unwatchAgent_run. cbv zeta.
  rewrite Hws, lookup_empty. rewrite drop_offset_absent; [done|].
  by rewrite Hfo, lookup_empty.
Qed.

Lemma stop_settled w :
  stopped (this w) = true -> watchers (this w) = ∅ -> fileOffsets (this w) = ∅ ->
  stop w = (Ret tt, w).
Proof.
  intros Hs Hws Hfo. rewrite stop_run. rewrite Hws, map_to_list_empty. cbn [foldl].
  destruct w as [f wa h c d [tn ws fo st] tr]. cbn in *. subst. reflexivity.
Qed.

(** Each call keeps the instance settled. *)
Lemma settled_perform c w :
  settled w -> ~ reregisters c w -> settled (snd (perform teamDir c w)).
Proof.
  intros Hset Hre. pose proof Hset as [Hheld Hst].
  destruct c as [|agent|agent| |h ev]; cbn [perform].
  - split.
    + intros h fw. rewrite heap_ensureDir, this_ensureDir. apply Hheld.
    + by rewrite this_ensureDir.
  - cbn [reregisters] in Hre.
    assert (watchers (this w) !! agent = None) as Hnew.
    { destruct (watchers (this w) !! agent) eqn:E; [|done]. by destruct Hre. }
    split; [by apply all_held_watchAgent|].
    destruct (watchAgent_frame agent w) as (_ & _ & _ & _ & Hs & _).
    cbv zeta in Hs. rewrite Hs. intros Hs'.
    rewrite (watchAgent_stopped teamDir agent w Hs'). by apply Hst.
  - split; [by apply all_held_unwatchAgent|].
    rewrite stopped_unwatchAgent. intros Hs. destruct (Hst Hs) as [Hws Hfo].
    by rewrite (unwatchAgent_settled agent w Hws Hfo).
  - clear Hre. destruct (stop_closes_held w) as (_ & Hs & Hws & Hfo & Hc). cbv zeta in *.
    split; [|done]. intros h fw Hl Ho. by rewrite (Hc Hheld h fw Hl) in Ho.
  - destruct (stopped (this w)) eqn:Hs.
    + rewrite notify_closed; [exact Hset|].
      intros fw Hl. by apply (settled_closed w Hset Hs h).
    + destruct (notify_cases h ev w) as [(fw & _ & _ & _ & Hn) | Hn]; rewrite Hn;
        [|exact Hset].
      destruct (readNewLines_frame (w_agent fw) (w_path fw) w)
        as (_ & Hh & _ & _ & Hws & Hs' & _).
      split.
      * intros x fx. rewrite Hh, Hws. apply Hheld.
      * rewrite Hs', Hs. done.
Qed.

Lemma settled_reachable w : reachable teamDir w -> settled w.
Proof.
  induction 1 as [team t grants clk|w c _ IH Hre|w w' _ IH (Ht & Hh & _)].
  - split; [|done]. intros h fw Hl. by destruct h.
  - by apply settled_perform.
  - destruct IH as [Hheld Hst]. split.
    + intros h fw. rewrite Hh, Ht. apply Hheld.
    + by rewrite Ht.
Qed.

Lemma statusLineLogPath_inj team a b :
  has_slash a = false -> has_slash b = false ->
  statusLineLogPath teamDir team a = statusLineLogPath teamDir team b -> a = b.
Proof.
  intros Ha Hb E.
  rewrite (statusLineLogPath_plain teamDir team a Ha),
    (statusLineLogPath_plain teamDir team b Hb) in E.
  apply app_inv_head in E. injection E as E. by apply append_inj_r in E.
Qed.

End Methods.

End ProtocolFacts.

(** * Sequences of calls *)
Module ProtocolProps.
Import Fs JsString Watcher Shapes Protocol WatcherFacts PathFacts FilesFacts FrameFacts.
Import LifecycleFacts ProtocolFacts.
Import Example.
Local Open Scope nat_scope.
Local Open Scope M_scope.

Section Methods.
Variable teamDir : string -> path.

(** X21. As long as no name is registered while it has a watcher,
    every open watcher is in the map, whatever the calls and
    notifications were and however the files changed in between; so
    once [stop] has been called every watcher is closed, both maps are
    empty, and no later call or notification changes the instance,
    opens a watcher or puts anything out. *)
Theorem stop_is_final_without_reregistration w :
  reachable teamDir w ->
  all_held w /\
  (stopped (this w) = true ->
   watchers (this w) = ∅ /\ fileOffsets (this w) = ∅ /\
   (forall h fw, heap w !! h = Some fw -> w_open fw = false) /\
   forall c, let w' := snd (perform teamDir c w) in
             this w' = this w /\ heap w' = heap w /\ trace w' = trace w).
Proof.
  intros Hr. pose proof (settled_reachable teamDir w Hr) as Hset.
  split; [apply Hset|]. intros Hs. destruct Hset as [Hheld Hst].
  destruct (Hst Hs) as [Hws Hfo]. split; [done|]. split; [done|].
  assert (forall h fw, heap w !! h = Some fw -> w_open fw = false) as Hclosed
    by by apply (settled_closed w (conj Hheld Hst) Hs).
  split; [done|]. intros c w'. subst w'.
  destruct c as [|agent|agent| |h ev]; cbn [perform].
  - by rewrite this_ensureDir, heap_ensureDir, trace_ensureDir.
  - by rewrite (watchAgent_stopped teamDir agent w Hs).
  - by rewrite (unwatchAgent_settled teamDir agent w Hws Hfo).
  - by rewrite (stop_settled w Hs Hws Hfo).
  - rewrite notify_closed; [done|]. intros fw. apply Hclosed.
Qed.

(** X22. Agents with different names that have no slash do not
    disturb each other: registering or unregistering one leaves the
    other's watcher, offset and log as they were. *)
Theorem agents_do_not_disturb_each_other a b w c :
  has_slash a = false -> has_slash b = false -> a <> b ->
  c = WatchAgent b \/ c = UnwatchAgent b ->
  let pa := statusLineLogPath teamDir (teamName (this w)) a in
  let w' := snd (perform teamDir c w) in
  watchers (this w') !! a = watchers (this w) !! a /\
  fileOffsets (this w') !! pa = fileOffsets (this w) !! pa /\
  files w' !! pa = files w !! pa /\
  forall h fw, watchers (this w) !! a = Some h ->
    watchers (this w) !! b <> Some h ->
    heap w !! h = Some fw -> heap w' !! h = Some fw.
Proof.
  intros Ha Hb Hab Hc pa w'. subst w'.
  assert (pa <> statusLineLogPath teamDir (teamName (this w)) b) as Hp.
  { intros E. by apply Hab, (statusLineLogPath_inj teamDir (teamName (this w))). }
  destruct Hc as [-> | ->]; cbn [perform].
  - destruct (watchAgent_frame teamDir b w) as (Hws & Hfo & Hf & Hh & _).
    cbv zeta in *. split; [by apply Hws|]. split; [by apply Hfo|].
    split; [by apply Hf|]. intros h fw _ _. apply Hh.
  - rewrite unwatchAgent_run. cbv zeta. cbn [snd].
    set (pb := statusLineLogPath teamDir (teamName (this w)) b) in *.
    destruct (watchers (this w) !! b) as [hb|] eqn:Eb;
      cbn [this files heap drop_offset drop_watcher shut_watcher with_this with_heap
             watchers fileOffsets set_watchers set_fileOffsets].
    + rewrite lookup_delete_ne by done. rewrite lookup_delete_ne by done.
      split; [done|]. split; [done|]. split; [done|].
      intros h fw _ Hne Hl. rewrite list_lookup_alter_ne; [done|]. congruence.
    + rewrite lookup_delete_ne by done. split; [done|]. split; [done|].
      split; [done|]. done.
Qed.

(** X23. Only change notifications emit events: [ensureDir],
    [unwatchAgent] and [stop] put nothing out at all, [watchAgent]
    only logs, and a notification of a rename does nothing. *)
Theorem only_change_notifications_emit agent h w :
  trace (snd (ensureDir teamDir w)) = trace w /\
  trace (snd (unwatchAgent teamDir agent w)) = trace w /\
  trace (snd (stop w)) = trace w /\
  updates (trace (snd (watchAgent teamDir agent w))) = updates (trace w) /\
  notify h Rename w = (Ret tt, w).
Proof.
  split; [apply trace_ensureDir|]. split; [apply trace_unwatchAgent|].
  split; [apply trace_stop|]. split.
  - destruct (watchAgent_frame teamDir agent w) as (_ & _ & _ & _ & _ & _ & os & Ht & Hu).
    cbv zeta in Ht. by rewrite Ht, updates_app, Hu, app_nil_r.
  - destruct (notify_cases h Rename w) as [(fw & _ & _ & Hev & _) | Hn]; done.
Qed.

(** X24. Watchers are only ever added and closed: after any call or
    notification each watcher is where it was, with the same agent and
    path, and open only if it was open; [watchAgent] alone creates a
    watcher, one at most, and no other call makes the table grow. *)
Theorem watchers_are_never_reopened c w :
  let w' := snd (perform teamDir c w) in
  (length (heap w') = length (heap w) \/
   exists agent fw, c = WatchAgent agent /\ heap w' = heap w ++ [fw] /\
                    w_agent fw = agent /\ w_open fw = true) /\
  forall h fw, heap w !! h = Some fw ->
    exists fw', heap w' !! h = Some fw' /\
      w_agent fw' = w_agent fw /\ w_path fw' = w_path fw /\
      (w_open fw' = true -> w_open fw = true).
Proof.
  intros w'. subst w'.
  assert (forall w1 : world, heap w1 = heap w ->
            (length (heap w1) = length (heap w) \/
             exists agent fw, c = WatchAgent agent /\ heap w1 = heap w ++ [fw] /\
                              w_agent fw = agent /\ w_open fw = true) /\
            forall h fw, heap w !! h = Some fw ->
              exists fw', heap w1 !! h = Some fw' /\
                w_agent fw' = w_agent fw /\ w_path fw' = w_path fw /\
                (w_open fw' = true -> w_open fw = true)) as Hsame.
  { intros w1 E. split; [left; by rewrite E|].
    intros h fw Hl. exists fw. by rewrite E. }
  destruct c as [|agent|agent| |h ev]; cbn [perform].
  - apply Hsame, heap_ensureDir.
  - destruct (heap_watchAgent teamDir agent w) as [E|E]; [by apply Hsame|].
    split.
    + right. eexists agent, _. by rewrite E.
    + intros h fw Hl. exists fw. rewrite E, lookup_app_l; [done|].
      by apply lookup_lt_Some in Hl.
  - rewrite unwatchAgent_run. cbv zeta. cbn [snd].
    destruct (watchers (this w) !! agent) as [x|]; [|by apply Hsame].
    cbn [heap drop_offset drop_watcher shut_watcher with_this with_heap].
    split; [left; apply length_alter|].
    intros h fw Hl. apply (close_all_lookup [(agent, x)] (heap w) h fw Hl).
  - rewrite stop_run. cbn [snd heap with_this with_heap].
    split; [left; apply length_close_all|apply close_all_lookup].
  - apply Hsame, heap_notify.
Qed.

End Methods.

(** A new instance on which [agent1] was registered, then stopped. *)
Lemma stop_is_final_without_reregistration_witness :
  let w := snd (stop (snd (watchAgent homeTeamDir "agent1"
                             (construct "A" disk (fun _ => true)
                                        (fun n => (1000 + Z.of_nat n)%Z))))) in
  reachable homeTeamDir w /\ stopped (this w) = true /\
  forall c, trace (snd (perform homeTeamDir c w)) = trace w.
Proof.
  intros w.
  assert (reachable homeTeamDir w) as Hr.
  { apply (reach_perform homeTeamDir _ Stop); [|by intros []].
    apply (reach_perform homeTeamDir _ (WatchAgent "agent1")).
    - apply reach_construct.
    - cbn [reregisters]. intros [x Hx]. by vm_compute in Hx. }
  assert (stopped (this w) = true) as Hs by by vm_compute.
  split; [done|]. split; [done|]. intros c.
  destruct (stop_is_final_without_reregistration homeTeamDir w Hr) as [_ H].
  destruct (H Hs) as (_ & _ & _ & Hc). apply Hc.
Defined.

(** [agent2] comes and goes while [agent1] is registered. *)
Lemma agents_do_not_disturb_each_other_witness :
  let w := after (watchAgent homeTeamDir "agent1") fresh in
  let w' := snd (perform homeTeamDir (WatchAgent "agent2") w) in
  has_slash "agent1" = false /\ has_slash "agent2" = false /\
  watchers (this w') !! "agent1"%string = watchers (this w) !! "agent1"%string.
Proof.
  intros w w'. split; [reflexivity|]. split; [reflexivity|].
  destruct (agents_do_not_disturb_each_other homeTeamDir "agent1" "agent2" w
              (WatchAgent "agent2") eq_refl eq_refl) as (H & _); [done|by left|].
  exact H.
Defined.

End ProtocolProps.
